(** * slotsmeta: automatic slot assignment (py/dml/slotsmeta.py)

    A shallow embedding of the metaclass [SlotsMeta], of its helper
    [patch_dict], of the decorator [auto_init] and of the trampoline
    [__init] that [auto_init] returns, together with the small part of
    the Python object model they rely on (class dictionaries, method
    resolution order, function attributes, instance attributes). *)

From stdpp Require Import base option list strings gmap.
From Stdlib Require Import ZArith.

Open Scope string_scope.
Open Scope list_scope.
Open Scope nat_scope.

(** ** Values *)

(** Plain data found in a class body besides functions and name sequences. *)
Inductive const := CNone | CInt (z : Z).

(** What a class dictionary maps a name to: a function object (by
    identity), a tuple or a list of names, or plain data. *)
Inductive entry :=
  | EFun (f : nat)
  | ETuple (names : list string)
  | EList (names : list string)
  | EConst (c : const).

#[global] Instance const_eq_dec : EqDecision const.
Proof. solve_decision. Defined.

#[global] Instance entry_eq_dec : EqDecision entry.
Proof. solve_decision. Defined.

(** Values passed to constructors: data, or a reference to an instance. *)
Inductive pyval := VNone | VInt (z : Z) | VObj (o : nat).

#[global] Instance pyval_eq_dec : EqDecision pyval.
Proof. solve_decision. Defined.

(** ** Exceptions *)

(** The argument of an [AssertionError]: nothing ([assert e]), a class
    ([assert e, c]) or a message. *)
Inductive payload := PNone | PClass (c : nat) | PMsg (msg : string).

(** [DanglingRef] is not a Python exception: it marks a reference to a
    class or function that is not in the table, which a well-formed world
    never contains. *)
Inductive exn :=
  | AssertionError (p : payload)
  | TypeError
  | AttributeError
  | IndexError
  | RecursionError
  | DanglingRef.

Inductive result (A : Type) :=
  | Ok (a : A)
  | Raise (e : exn).
Arguments Ok {A} a.
Arguments Raise {A} e.

#[global] Instance result_ret : MRet result := @Ok.
#[global] Instance result_bind : MBind result := λ A B f m,
  match m with
  | Ok a => f a
  | Raise e => Raise e
  end.

(** [assert cond, p] *)
Definition assert (cond : bool) (p : payload) : result unit :=
  if cond then Ok tt else Raise (AssertionError p).

Definition from_option {A} (e : exn) (o : option A) : result A :=
  match o with
  | Some a => Ok a
  | None => Raise e
  end.

(** ** Function objects *)

(** The tuple returned by [inspect.getfullargspec]. *)
Module FullArgSpec.
Record t := mk {
  args : list string;
  varargs : option string;
  varkw : option string;
  defaults : option (list const);
  kwonlyargs : list string;
  kwonlydefaults : option (list (string * const));
  annotations : list (string * const);
}.
End FullArgSpec.

(** An instance: its class and the attributes stored in it. *)
Record instance := {
  icls : nat;
  iattrs : gmap string pyval;
}.

(** The heap of instances, addressed by position. *)
Abbreviation heap := (list instance).

(** The code of a function object: either user code, taken as a
    transformer of the heap that may raise (its own argument binding
    included), or the closure [__init] returned by [auto_init], which
    remembers the function [fun] it wraps. *)
Inductive code :=
  | Plain (body : list pyval → list (string * pyval) → heap → result unit * heap)
  | Trampoline (fun_ : nat).

(** A function object: what [getfullargspec] says of it, its code, and
    the two function attributes the module reads and writes. *)
Record funobj := {
  f_spec : FullArgSpec.t;
  f_code : code;
  f_auto_init_args : option (list string);
  f_cls : option nat;
}.

(** ** Classes and the world *)

(** [cmeta] tells whether the class is an instance of [SlotsMeta]. *)
Record pyclass := {
  cname : string;
  cmeta : bool;
  cbases : list nat;
  cmro : list nat;
  cdict : gmap string entry;
}.

(** Classes and functions are addressed by their position in the table. *)
Record world := {
  classes : list pyclass;
  funs : list funobj;
}.

(** [inspect.getmro(c)] *)
Definition getmro (w : world) (c : nat) : result (list nat) :=
  from_option DanglingRef (cmro <$> classes w !! c).

(** The first class of [mro] whose dictionary has [name]. *)
Fixpoint mro_lookup (w : world) (mro : list nat) (name : string) : option entry :=
  match mro with
  | [] => None
  | c :: rest =>
      match classes w !! c with
      | Some k =>
          match cdict k !! name with
          | Some e => Some e
          | None => mro_lookup w rest name
          end
      | None => mro_lookup w rest name
      end
  end.

(** [c.name] for a class [c]. *)
Definition class_getattr (w : world) (c : nat) (name : string) : result entry :=
  mro ← getmro w c;
  from_option AttributeError (mro_lookup w mro name).

(** [isinstance(c, SlotsMeta)] *)
Definition isinstance_SlotsMeta (w : world) (c : nat) : result bool :=
  from_option DanglingRef (cmeta <$> classes w !! c).

(** [len(e)] *)
Definition py_len (e : entry) : result nat :=
  match e with
  | ETuple l | EList l => Ok (length l)
  | _ => Raise TypeError
  end.

(** Lists are not hashable. *)
Definition hashable (e : entry) : bool :=
  match e with
  | EList _ => false
  | _ => true
  end.

Definition py_hash (e : entry) : result entry :=
  if hashable e then Ok e else Raise TypeError.

(** ** Class creation by the runtime: [type.__new__] *)

(** Linearisation of the bases: the merge that computes a method
    resolution order. *)
Definition in_tail (c : nat) (seqs : list (list nat)) : bool :=
  existsb (λ s, bool_decide (c ∈ tail s)) seqs.

Fixpoint pick_head (seqs all : list (list nat)) : option nat :=
  match seqs with
  | [] => None
  | [] :: rest => pick_head rest all
  | (c :: _) :: rest => if in_tail c all then pick_head rest all else Some c
  end.

Definition drop_head (c : nat) (s : list nat) : list nat :=
  match s with
  | h :: t => if bool_decide (h = c) then t else s
  | [] => []
  end.

Fixpoint mro_merge (fuel : nat) (seqs : list (list nat)) : option (list nat) :=
  if forallb (λ s, bool_decide (s = [])) seqs then Some []
  else
    match fuel with
    | 0 => None
    | S k =>
        c ← pick_head seqs seqs;
        rest ← mro_merge k (drop_head c <$> seqs);
        Some (c :: rest)
    end.

(** The class [object] is the first class of every world. *)
Definition object_id : nat := 0.

(** [super(SlotsMeta, cls).__new__(cls, clsname, bases, dct)]: the new
    class is appended to the table. Only the linearisation is modelled;
    the runtime's other checks (layout, name clashes) are not. *)
Definition type_new (w : world) (clsname : string) (bases : list nat)
    (dct : gmap string entry) : result (nat * world) :=
  let bases' := match bases with [] => [object_id] | _ => bases end in
  mros ← mapM (getmro w) bases';
  let c := length (classes w) in
  let seqs := mros ++ [bases'] in
  mro ← from_option TypeError (mro_merge (S (length (concat seqs))) seqs);
  Ok (c, {| classes := classes w ++
                         [{| cname := clsname; cmeta := true; cbases := bases';
                             cmro := c :: mro; cdict := dct |}];
            funs := funs w |}).

(** ** [inspect.getfullargspec] and function attributes *)

Definition getfullargspec (w : world) (e : entry) : result FullArgSpec.t :=
  match e with
  | EFun f => from_option DanglingRef (f_spec <$> funs w !! f)
  | _ => Raise TypeError
  end.

(** [getattr(init, 'auto_init_args', None)] *)
Definition getattr_auto_init_args (w : world) (e : entry) : option (list string) :=
  match e with
  | EFun f => fo ← funs w !! f; f_auto_init_args fo
  | _ => None
  end.

(** Truth value of [getattr(init, 'auto_init_args', None)]. *)
Definition truthy (o : option (list string)) : bool :=
  match o with
  | Some (_ :: _) => true
  | _ => false
  end.

(** [a is b] where each side is [None] or an object; [same] compares two
    objects for identity. *)
Definition py_is {A B} (same : A → B → bool) (a : option A) (b : option B) : bool :=
  match a, b with
  | None, None => true
  | Some x, Some y => same x y
  | _, _ => false
  end.

Definition is_None {A} (a : option A) : bool :=
  match a with
  | None => true
  | Some _ => false
  end.

(** [varargs is varkw is kwonlydefaults is None]: a chained comparison.
    Two names are the same object when they are equal (identifiers are
    interned); a name is never a dictionary. *)
Definition all_None (s : FullArgSpec.t) : bool :=
  py_is String.eqb (FullArgSpec.varargs s) (FullArgSpec.varkw s)
  && py_is (λ _ _, false) (FullArgSpec.varkw s) (FullArgSpec.kwonlydefaults s)
  && is_None (FullArgSpec.kwonlydefaults s).

(** [not defaults] *)
Definition not_defaults (s : FullArgSpec.t) : bool :=
  match FullArgSpec.defaults s with
  | None | Some [] => true
  | Some (_ :: _) => false
  end.

(** ** The module *)

(** [SlotsMeta.patch_dict(dct, init_args, parent_init_args)]; the dict is
    returned instead of changed in place. *)
Definition patch_dict (dct : gmap string entry) (init_args : list string)
    (parent_init_args : entry) : result (gmap string entry) :=
  let dct := <["init_args" := EList init_args]> dct in
  n ← py_len parent_init_args;
  assert (bool_decide (EList (take n init_args) = parent_init_args)) PNone;;
  slots ← match default (ETuple []) (dct !! "slots") with
          | ETuple s => Ok s
          | _ => Raise TypeError
          end;
  Ok (<["__slots__" := ETuple (drop n init_args ++ slots)]> dct).

(** [base.__init__], put in a set or looked up in one. *)
Definition class_init (w : world) (c : nat) : result entry :=
  e ← class_getattr w c "__init__";
  py_hash e.

(** [for c in inspect.getmro(b): assert c.__init__ in all_inits, c] *)
Fixpoint check_mro (w : world) (all_inits : list entry) (mro : list nat) : result unit :=
  match mro with
  | [] => Ok tt
  | c :: rest =>
      e ← class_init w c;
      assert (bool_decide (e ∈ all_inits)) (PClass c);;
      check_mro w all_inits rest
  end.

(** [for b in bases[1:]: ...] *)
Fixpoint check_bases (w : world) (all_inits : list entry) (bs : list nat) : result unit :=
  match bs with
  | [] => Ok tt
  | b :: rest =>
      mro ← getmro w b;
      check_mro w all_inits mro;;
      check_bases w all_inits rest
  end.

(** The [if len(bases) > 1:] block of [SlotsMeta.__new__]. *)
Definition check_linear (w : world) (bases : list nat) : result unit :=
  match bases with
  | b0 :: (_ :: _) as rest =>
      mro0 ← getmro w b0;
      all_inits ← mapM (class_init w) mro0;
      check_bases w all_inits rest
  | _ => Ok tt
  end.

(** [bases and isinstance(bases[0], SlotsMeta)] *)
Definition first_base_is_SlotsMeta (w : world) (bases : list nat) : result bool :=
  match bases with
  | [] => Ok false
  | b0 :: _ => isinstance_SlotsMeta w b0
  end.

(** [bases[0].init_args if bases and isinstance(bases[0], SlotsMeta)
     else ['self']] *)
Definition parent_init_args_of (w : world) (bases : list nat) : result entry :=
  b ← first_base_is_SlotsMeta w bases;
  if b : bool then
    match bases with
    | b0 :: _ => class_getattr w b0 "init_args"
    | [] => Raise IndexError
    end
  else Ok (EList ["self"]).

(** [init.cls = new_class] *)
Definition set_cls (w : world) (init : entry) (c : nat) : world :=
  match init with
  | EFun f =>
      {| classes := classes w;
         funs := alter (λ fo, {| f_spec := f_spec fo; f_code := f_code fo;
                                 f_auto_init_args := f_auto_init_args fo;
                                 f_cls := Some c |}) f (funs w) |}
  | _ => w
  end.

(** [SlotsMeta.__new__(cls, clsname, bases, dct)] *)
Definition SlotsMeta_new (w : world) (clsname : string) (bases : list nat)
    (dct : gmap string entry) : result (nat * world) :=
  check_linear w bases;;
  assert (bool_decide (dct !! "__slots__" = None))
         (PMsg "set 'slots' instead of '__slots__'");;
  match dct !! "__init__" with
  | Some init =>
      parent_init_args ← parent_init_args_of w bases;
      let init_args := getattr_auto_init_args w init in
      if truthy init_args then
        b ← first_base_is_SlotsMeta w bases;
        assert b PNone;;
        dct ← patch_dict dct (default [] init_args) parent_init_args;
        '(new_class, w) ← type_new w clsname bases dct;
        Ok (new_class, set_cls w init new_class)
      else
        spec ← getfullargspec w init;
        assert (all_None spec) PNone;;
        assert (bool_decide (FullArgSpec.kwonlyargs spec = [])) PNone;;
        assert (bool_decide (FullArgSpec.annotations spec = [])) PNone;;
        dct ← patch_dict dct (FullArgSpec.args spec) parent_init_args;
        type_new w clsname bases dct
  | None =>
      let dct := <["__slots__" := default (ETuple []) (dct !! "slots")]> dct in
      b0 ← from_option IndexError (head bases);
      b ← isinstance_SlotsMeta w b0;
      assert b PNone;;
      type_new w clsname bases dct
  end.

(** What [getfullargspec] says of the closure [__init], whose
    parameters are [*args] and [**kwargs]. *)
Definition trampoline_spec : FullArgSpec.t :=
  FullArgSpec.mk [] (Some "args") (Some "kwargs") None [] None [].

(** [auto_init(fun)]: the trampoline is a new function object.
    [functools.wraps] copies the attributes of [fun] to it, then
    [auto_init_args] is set. *)
Definition auto_init (w : world) (fun_ : nat) : result (nat * world) :=
  spec ← getfullargspec w (EFun fun_);
  assert (all_None spec) PNone;;
  assert (not_defaults spec) PNone;;
  assert (bool_decide (FullArgSpec.kwonlyargs spec = [])) PNone;;
  assert (bool_decide (FullArgSpec.annotations spec = [])) PNone;;
  fo ← from_option DanglingRef (funs w !! fun_);
  let __init := {| f_spec := trampoline_spec; f_code := Trampoline fun_;
                   f_auto_init_args := Some (FullArgSpec.args spec);
                   f_cls := f_cls fo |} in
  Ok (length (funs w), {| classes := classes w; funs := funs w ++ [__init] |}).

(** ** Instances: the trampoline at work *)

(** What the interpreter records: a trampoline was entered, an attribute
    was assigned by [setattr], user code was called. *)
Inductive event :=
  | ETrampoline (f : nat)
  | ESetattr (o : nat) (name : string) (v : pyval)
  | ECall (f : nat) (args : list pyval) (kwargs : list (string * pyval)).

Record state := {
  sheap : heap;
  slog : list event;
}.

(** Computations that read and change the state and may raise. *)
Definition M (A : Type) : Type := state → result A * state.

#[global] Instance M_ret : MRet M := λ A a s, (Ok a, s).
#[global] Instance M_bind : MBind M := λ A B f m s,
  match m s with
  | (Ok a, s') => f a s'
  | (Raise e, s') => (Raise e, s')
  end.

Definition lift {A} (r : result A) : M A := λ s, (r, s).

Definition raise {A} (e : exn) : M A := lift (Raise e).

Definition get_heap : M heap := λ s, (Ok (sheap s), s).

Definition log (ev : event) : M unit :=
  λ s, (Ok tt, {| sheap := sheap s; slog := slog s ++ [ev] |}).

(** Running user code: it sees and changes the heap only. *)
Definition run_body
    (body : list pyval → list (string * pyval) → heap → result unit * heap)
    (args : list pyval) (kwargs : list (string * pyval)) : M unit :=
  λ s, let '(r, h) := body args kwargs (sheap s) in
       (r, {| sheap := h; slog := slog s |}).

Definition entry_names (e : entry) : list string :=
  match e with
  | ETuple l | EList l => l
  | _ => []
  end.

(** The names declared by the [__slots__] of the classes of [mro]. *)
Definition slot_names (w : world) (mro : list nat) : list string :=
  c ← mro;
  match classes w !! c with
  | Some k => entry_names (default (ETuple []) (cdict k !! "__slots__"))
  | None => []
  end.

(** An instance has a [__dict__] when a class of its MRO other than
    [object] declares no [__slots__]. *)
Definition has_dict (w : world) (mro : list nat) : bool :=
  existsb (λ c, negb (bool_decide (c = object_id)) &&
                match classes w !! c with
                | Some k => is_None (cdict k !! "__slots__")
                | None => false
                end) mro.

(** [setattr(self, name, arg)] *)
Definition setattr (w : world) (self : pyval) (name : string) (arg : pyval) : M unit :=
  λ s,
  match self with
  | VObj o =>
      match sheap s !! o with
      | Some i =>
          match getmro w (icls i) with
          | Ok mro =>
              if has_dict w mro || bool_decide (name ∈ slot_names w mro) then
                (Ok tt,
                 {| sheap := <[o := {| icls := icls i;
                                       iattrs := <[name := arg]> (iattrs i) |}]> (sheap s);
                    slog := slog s ++ [ESetattr o name arg] |})
              else (Raise AttributeError, s)
          | Raise e => (Raise e, s)
          end
      | None => (Raise DanglingRef, s)
      end
  | _ => (Raise AttributeError, s)
  end.

(** [for (name, arg) in pairs: setattr(self, name, arg)] *)
Fixpoint setattrs (w : world) (self : pyval) (pairs : list (string * pyval)) : M unit :=
  match pairs with
  | [] => mret tt
  | (name, arg) :: rest => setattr w self name arg;; setattrs w self rest
  end.

(** The classes that follow [c] in [mro]. *)
Fixpoint after (c : nat) (mro : list nat) : option (list nat) :=
  match mro with
  | [] => None
  | x :: rest => if bool_decide (x = c) then Some rest else after c rest
  end.

(** [super(cls, self)]: the part of the MRO of [type(self)] that an
    attribute of the proxy is searched in. *)
Definition super (w : world) (h : heap) (cls : nat) (self : pyval) : result (list nat) :=
  match self with
  | VObj o =>
      i ← from_option DanglingRef (h !! o);
      mro ← getmro w (icls i);
      from_option TypeError (after cls mro)
  | _ => Raise TypeError
  end.

(** [self.init_args[n:]]: an attribute stored in the instance hides the
    one of the class, and no stored value can be sliced. *)
Definition self_init_args_from (w : world) (h : heap) (self : pyval) (n : nat)
    : result (list string) :=
  match self with
  | VObj o =>
      i ← from_option DanglingRef (h !! o);
      match iattrs i !! "init_args" with
      | Some _ => Raise TypeError
      | None =>
          e ← class_getattr w (icls i) "init_args";
          match e with
          | ETuple l | EList l => Ok (drop n l)
          | _ => Raise TypeError
          end
      end
  | _ => Raise AttributeError
  end.

(** Calling the function object [f] with [*args, **kwargs]; [fuel] is
    the recursion depth still allowed. The [Trampoline] case is the
    closure [__init] of [auto_init]. *)
Fixpoint call (fuel : nat) (w : world) (f : entry) (args : list pyval)
    (kwargs : list (string * pyval)) : M unit :=
  match fuel with
  | 0 => raise RecursionError
  | S fuel =>
      match f with
      | EFun fid =>
          match funs w !! fid with
          | Some __init =>
              match f_code __init with
              | Plain body =>
                  log (ECall fid args kwargs);;
                  run_body body args kwargs
              | Trampoline fun_ =>
                  log (ETrampoline fid);;
                  cls ← lift (from_option
                    (AssertionError (PMsg "@auto_init only allowed in SlotsMeta classes"))
                    (f_cls __init));
                  self ← lift (from_option IndexError (head args));
                  h ← get_heap;
                  sup ← lift (super w h cls self);
                  sup_init_args ← lift (from_option AttributeError
                                          (mro_lookup w sup "init_args"));
                  super_nargs ← lift (py_len sup_init_args);
                  sup_init ← lift (from_option AttributeError
                                     (mro_lookup w sup "__init__"));
                  call fuel w sup_init (self :: drop 1 (take super_nargs args)) [];;
                  h ← get_heap;
                  names ← lift (self_init_args_from w h self super_nargs);
                  setattrs w self (zip names (drop super_nargs args));;
                  setattrs w self kwargs;;
                  call fuel w (EFun fun_) args kwargs
              end
          | None => raise DanglingRef
          end
      | _ => raise TypeError
      end
  end.

(** Calling the class [c]: a new instance is allocated and initialised. *)
Definition instantiate (fuel : nat) (w : world) (c : nat) (args : list pyval)
    (kwargs : list (string * pyval)) : M nat :=
  init ← lift (class_getattr w c "__init__");
  h ← get_heap;
  let o := length h in
  (λ s, (Ok tt, {| sheap := sheap s ++ [{| icls := c; iattrs := ∅ |}];
                   slog := slog s |}));;
  call fuel w init (VObj o :: args) kwargs;;
  mret o.

(** Steps of the module's own code, as opposed to user code. *)
Definition is_artifact (ev : event) : bool :=
  match ev with
  | ETrampoline _ | ESetattr _ _ _ => true
  | ECall _ _ _ => false
  end.

(** ** A small program

    [object], then
<<
    class Code(metaclass=SlotsMeta):
        slots = ('context',)
        def __init__(self, site): self.site = site
    class If(Code):
        @auto_init
        def __init__(self, site, cond, body): pass
>> *)

Definition simple_spec (names : list string) : FullArgSpec.t :=
  FullArgSpec.mk names None None None [] None [].

(** [object.__init__] accepts no argument besides [self]. *)
Definition object_init : funobj :=
  {| f_spec := FullArgSpec.mk ["self"] (Some "args") (Some "kwargs") None [] None [];
     f_code := Plain (λ args kwargs h,
                 if bool_decide (length args = 1 ∧ kwargs = [])
                 then (Ok tt, h) else (Raise TypeError, h));
     f_auto_init_args := None;
     f_cls := None |}.

Definition init_world : world :=
  {| classes := [ {| cname := "object"; cmeta := false; cbases := [];
                     cmro := [object_id];
                     cdict := {[ "__init__" := EFun 0 ]} |} ];
     funs := [object_init] |}.

(** [def f(...)]: a new function object. *)
Definition def_fun (w : world) (fo : funobj) : nat * world :=
  (length (funs w), {| classes := classes w; funs := funs w ++ [fo] |}).

(** A function of the given parameters whose body is [pass]. *)
Definition pass_fun (names : list string) : funobj :=
  {| f_spec := simple_spec names;
     f_code := Plain (λ args kwargs h,
                 if bool_decide (length args + length kwargs = length names)
                 then (Ok tt, h) else (Raise TypeError, h));
     f_auto_init_args := None;
     f_cls := None |}.

(** [def __init__(self, site): self.site = site] *)
Definition Code_init : funobj :=
  {| f_spec := simple_spec ["self"; "site"];
     f_code := Plain (λ args kwargs h,
                 match args, kwargs with
                 | [VObj o; site], [] =>
                     (Ok tt, alter (λ i, {| icls := icls i;
                                            iattrs := <["site" := site]> (iattrs i) |}) o h)
                 | _, _ => (Raise TypeError, h)
                 end);
     f_auto_init_args := None;
     f_cls := None |}.

Definition world_Code : result (nat * world) :=
  let '(f, w) := def_fun init_world Code_init in
  SlotsMeta_new w "Code" []
    {[ "slots" := ETuple ["context"]; "__init__" := EFun f ]}.

Definition get_world {A} (r : result (A * world)) : world :=
  match r with
  | Ok (_, w) => w
  | Raise _ => init_world
  end.

(** The world in which [Code] exists. *)
Definition world_with_Code : world := get_world world_Code.

(** The same, after [def __init__(self, site, cond, body): pass] and its
    decoration: functions 2 and 3. *)
Definition world_If_def : world :=
  get_world (auto_init
    (def_fun world_with_Code (pass_fun ["self"; "site"; "cond"; "body"])).2 2).

(** The world in which [Code] and [If] exist. *)
Definition world_with_If : world :=
  get_world (SlotsMeta_new world_If_def "If" [1] {[ "__init__" := EFun 3 ]}).

(** [def __init__(self, site=None): pass], a plain initializer with a
    default value, as function 1. *)
Definition default_init : funobj :=
  {| f_spec := FullArgSpec.mk ["self"; "site"] None None (Some [CNone]) [] None [];
     f_code := Plain (λ args kwargs h,
                 if bool_decide (1 ≤ length args + length kwargs ≤ 2)
                 then (Ok tt, h) else (Raise TypeError, h));
     f_auto_init_args := None;
     f_cls := None |}.

Definition world_default_def : world := (def_fun init_world default_init).2.

(** [def __init__(self, *rest): pass] as function 1. *)
Definition variadic_init : funobj :=
  {| f_spec := FullArgSpec.mk ["self"] (Some "rest") None None [] None [];
     f_code := Plain (λ args kwargs h, (Ok tt, h));
     f_auto_init_args := None;
     f_cls := None |}.

Definition world_variadic_def : world := (def_fun init_world variadic_init).2.

(** A second root class with an initializer of its own,
<<
    class Other(metaclass=SlotsMeta):
        def __init__(self): pass
>>
    as class 2 (function 2) next to [Code]. *)
Definition world_with_Other : world :=
  get_world (SlotsMeta_new (def_fun world_with_Code (pass_fun ["self"])).2
               "Other" [] {[ "__init__" := EFun 2 ]}).

(** [def __init__(self, cond, site): pass] as function 2, for a subclass
    of [Code] that reorders the parameters. *)
Definition world_reorder_def : world :=
  (def_fun world_with_Code (pass_fun ["self"; "cond"; "site"])).2.

(** A fresh instance of [If] and the arguments of [If(1, 2, 3)]. *)
Definition state_If : state :=
  {| sheap := [{| icls := 2; iattrs := ∅ |}]; slog := [] |}.

Definition args_If : list pyval := [VObj 0; VInt 1; VInt 2; VInt 3].

(** [If(1, 2, 3, context=9)]: [context] is a slot of [Code], not a
    parameter of the initializer of [If]. *)
Definition kwargs_ctx : list (string * pyval) := [("context", VInt 9)].

(** The state after the initializer of [Code] has run for that call, and
    after the positional assignments. *)
Definition state_If_super : state :=
  (call 2 world_with_If (EFun 1) [VObj 0; VInt 1] []
     {| sheap := sheap state_If; slog := [ETrampoline 3] |}).2.

Definition state_If_assigned : state :=
  (setattrs world_with_If (VObj 0) [("cond", VInt 2); ("body", VInt 3)]
     state_If_super).2.

(** [Code] and a decorated [def __init__(): pass]: functions 2 and 3. *)
Definition world_noparam_def : world :=
  get_world (auto_init (def_fun world_with_Code (pass_fun [])).2 2).

(** ** Notions used by the statements *)

(** The argument names [SlotsMeta.__new__] takes for [init]: its
    [auto_init_args] when that attribute is a non-empty list, what
    [getfullargspec] says otherwise. *)
Definition init_arg_names (w : world) (init : entry) : result (list string) :=
  match getattr_auto_init_args w init with
  | Some (a :: l) => Ok (a :: l)
  | _ => spec ← getfullargspec w init; Ok (FullArgSpec.args spec)
  end.

(** The trampoline [t] is as [auto_init] builds it from [fun_]. *)
Definition made_by_auto_init (w : world) (t fun_ : nat) : Prop :=
  ∃ fo go,
    funs w !! t = Some fo ∧ funs w !! fun_ = Some go ∧
    f_code fo = Trampoline fun_ ∧
    f_spec fo = trampoline_spec ∧
    f_auto_init_args fo = Some (FullArgSpec.args (f_spec go)).

(** The positional parameters of an initializer as its author wrote
    them: those of the function itself, or of the function a trampoline
    wraps. *)
Definition written_args (w : world) (init : entry) : option (list string) :=
  match init with
  | EFun f =>
      fo ← funs w !! f;
      match f_code fo with
      | Plain _ => Some (FullArgSpec.args (f_spec fo))
      | Trampoline fun_ => go ← funs w !! fun_; Some (FullArgSpec.args (f_spec go))
      end
  | _ => None
  end.

(** Function attributes are as the module leaves them: a plain function
    has no [auto_init_args], a trampoline is one of [auto_init]. *)
Definition genuine (w : world) (init : entry) : Prop :=
  match init with
  | EFun f =>
      ∃ fo, funs w !! f = Some fo ∧
        match f_code fo with
        | Plain _ => f_auto_init_args fo = None
        | Trampoline fun_ => made_by_auto_init w f fun_
        end
  | _ => False
  end.

(** What [__init__] is in a class dictionary is hashable; the MRO of a
    class resolves [__init__], and so does every class in it; the MRO of
    a [SlotsMeta] class resolves [init_args]. *)
Definition wf_class (w : world) (k : pyclass) : bool :=
  match cdict k !! "__init__" with
  | Some e => hashable e
  | None => true
  end
  && bool_decide (is_Some (mro_lookup w (cmro k) "__init__"))
  && forallb (λ c, match class_init w c with Ok _ => true | Raise _ => false end)
       (cmro k)
  && (negb (cmeta k) || bool_decide (is_Some (mro_lookup w (cmro k) "init_args"))).

(** The class [object] exists and every class is well formed. *)
Definition wf_world (w : world) : bool :=
  bool_decide (is_Some (classes w !! object_id)) && forallb (wf_class w) (classes w).

Definition valid_bases (w : world) (bases : list nat) : bool :=
  forallb (λ b, bool_decide (b < length (classes w))) bases.

(** A signature outside the shape the module accepts. *)
Definition has_defaults (s : FullArgSpec.t) : Prop :=
  ∃ d ds, FullArgSpec.defaults s = Some (d :: ds).

Definition variadic_or_kwonly_or_annotated (s : FullArgSpec.t) : Prop :=
  FullArgSpec.varargs s ≠ None ∨ FullArgSpec.varkw s ≠ None ∨
  FullArgSpec.kwonlyargs s ≠ [] ∨ FullArgSpec.kwonlydefaults s ≠ None ∨
  FullArgSpec.annotations s ≠ [].

(** [__init__] inheritance is linear: every class in the MRO of a base
    after the first has an [__init__] that is also the [__init__] of a
    class in the MRO of the first base. *)
Definition init_linear (w : world) (bases : list nat) : Prop :=
  ∀ b0 rest mro0, bases = b0 :: rest → getmro w b0 = Ok mro0 →
    ∀ b mro c, b ∈ rest → getmro w b = Ok mro → c ∈ mro →
      ∃ e base, class_getattr w c "__init__" = Ok e ∧
                base ∈ mro0 ∧ class_getattr w base "__init__" = Ok e.

(** The class [c] breaks linearity. *)
Definition offending (w : world) (bases : list nat) (c : nat) : Prop :=
  ∃ b0 rest mro0 b mro e,
    bases = b0 :: rest ∧ getmro w b0 = Ok mro0 ∧
    b ∈ rest ∧ getmro w b = Ok mro ∧ c ∈ mro ∧
    class_getattr w c "__init__" = Ok e ∧
    ∀ base, base ∈ mro0 → class_getattr w base "__init__" ≠ Ok e.

(** The assignments [setattr(self, name, arg)] for [pairs], as events. *)
Definition assign_events (o : nat) (pairs : list (string * pyval)) : list event :=
  (λ p, ESetattr o p.1 p.2) <$> pairs.

(** The attributes of an instance after these assignments. *)
Definition assign_attrs (pairs : list (string * pyval)) (m : gmap string pyval)
    : gmap string pyval :=
  foldl (λ m p, <[p.1 := p.2]> m) m pairs.

Definition assign_heap (o : nat) (pairs : list (string * pyval)) (h : heap) : heap :=
  alter (λ i, {| icls := icls i; iattrs := assign_attrs pairs (iattrs i) |}) o h.

(** A computation frames the log when it only appends to it, the same
    events whatever the log it starts with. *)
Definition frames {A} (m : M A) : Prop :=
  ∀ h L, m {| sheap := h; slog := L |} =
         let '(r, s') := m {| sheap := h; slog := [] |} in
         (r, {| sheap := sheap s'; slog := L ++ slog s' |}).

(** [setattr(o, name, _)] can succeed: the instance exists and has a
    slot of that name or a [__dict__]. *)
Definition assignable (w : world) (h : heap) (o : nat) (name : string) : Prop :=
  ∃ i mro, h !! o = Some i ∧ getmro w (icls i) = Ok mro ∧
           has_dict w mro || bool_decide (name ∈ slot_names w mro) = true.

(** The steps of the module's code in a log. *)
Definition artifact_steps (L : list event) : list event := List.filter is_artifact L.

(** The worlds a program builds from [object] by defining functions,
    decorating them and creating classes whose bases exist. *)
Inductive built : world → Prop :=
  | built_init : built init_world
  | built_def w fo : built w → built (def_fun w fo).2
  | built_auto_init w fun_ t w' :
      built w → auto_init w fun_ = Ok (t, w') → built w'
  | built_class w clsname bases dct c w' :
      built w → valid_bases w bases = true →
      SlotsMeta_new w clsname bases dct = Ok (c, w') → built w'.

(** * Properties *)

(** ** The small program, run *)

Example Code_dict :
  (cdict <$> classes world_with_Code !! 1) ≫= (.!! "__slots__")
    = Some (ETuple ["site"; "context"]) ∧
  (cdict <$> classes world_with_Code !! 1) ≫= (.!! "init_args")
    = Some (EList ["self"; "site"]).
Proof. split; vm_compute; reflexivity. Qed.

Example If_dict :
  (cdict <$> classes world_with_If !! 2) ≫= (.!! "__slots__")
    = Some (ETuple ["cond"; "body"]) ∧
  (cdict <$> classes world_with_If !! 2) ≫= (.!! "init_args")
    = Some (EList ["self"; "site"; "cond"; "body"]) ∧
  cmro <$> classes world_with_If !! 2 = Some [2; 1; 0].
Proof. split_and!; vm_compute; reflexivity. Qed.

Example If_instance :
  let r := instantiate 3 world_with_If 2 [VInt 1; VInt 2; VInt 3] []
             {| sheap := []; slog := [] |} in
  r.1 = Ok 0 ∧
  (map_to_list ∘ iattrs) <$> sheap r.2 !! 0
    = Some [("site", VInt 1); ("cond", VInt 2); ("body", VInt 3)] ∧
  slog r.2 = [ETrampoline 3; ECall 1 [VObj 0; VInt 1] [];
              ESetattr 0 "cond" (VInt 2); ESetattr 0 "body" (VInt 3);
              ECall 2 [VObj 0; VInt 1; VInt 2; VInt 3] []].
Proof. split_and!; vm_compute; reflexivity. Qed.

(** ** The result monad *)

Lemma bind_Ok_inv {A B} (m : result A) (f : A → result B) (b : B) :
  m ≫= f = Ok b → ∃ a, m = Ok a ∧ f a = Ok b.
Proof. destruct m as [a|e]; simpl; [eauto | discriminate]. Qed.

Lemma assert_Ok_inv (cond : bool) (p : payload) (u : unit) :
  assert cond p = Ok u → cond = true.
Proof. destruct cond; [done | discriminate]. Qed.

Lemma from_option_Ok_inv {A} (e : exn) (o : option A) (a : A) :
  from_option e o = Ok a → o = Some a.
Proof. destruct o; simpl; congruence. Qed.

Ltac inv_result :=
  repeat match goal with
  | H : _ ≫= _ = Ok _ |- _ =>
      let a := fresh "a" in let Ha := fresh "Ha" in
      apply bind_Ok_inv in H as (a & Ha & H)
  | H : assert _ _ = Ok _ |- _ => apply assert_Ok_inv in H
  | H : from_option _ _ = Ok _ |- _ => apply from_option_Ok_inv in H
  | H : mret _ = Ok _ |- _ => unfold mret, result_ret in H
  | H : Ok _ = Ok _ |- _ => injection H as H; try subst
  | H : Raise _ = Ok _ |- _ => discriminate H
  | H : bool_decide _ = true |- _ => apply bool_decide_eq_true_1 in H
  end.

(** ** [patch_dict] and [type.__new__] *)

Lemma take_length_take {A} (l : list A) (n : nat) :
  take (length (take n l)) l = take n l.
Proof.
  rewrite length_take. destruct (decide (n ≤ length l)).
  - by rewrite Nat.min_l.
  - rewrite Nat.min_r by lia. by rewrite !take_ge by lia.
Qed.

Lemma patch_dict_Ok_inv dct init_args parent dct' :
  patch_dict dct init_args parent = Ok dct' →
  ∃ p slots,
    parent = EList p ∧
    take (length p) init_args = p ∧
    default (ETuple []) (dct !! "slots") = ETuple slots ∧
    dct' = <["__slots__" := ETuple (drop (length p) init_args ++ slots)]>
             (<["init_args" := EList init_args]> dct).
Proof.
  unfold patch_dict. intros H. inv_result.
  rewrite lookup_insert_ne in Ha1 by done.
  subst parent. simpl in Ha. injection Ha as <-.
  destruct (default (ETuple []) (dct !! "slots")) as [|s| |] eqn:E; try discriminate.
  injection Ha1 as <-. exists (take a init_args), s.
  by rewrite take_length_take.
Qed.

Lemma type_new_Ok_inv w clsname bases dct c w' :
  type_new w clsname bases dct = Ok (c, w') →
  c = length (classes w) ∧ funs w' = funs w ∧
  ∃ k, classes w' = classes w ++ [k] ∧ cdict k = dct ∧ cmeta k = true.
Proof.
  unfold type_new. intros H. inv_result. simpl. eauto 10.
Qed.

Lemma set_cls_classes w init c : classes (set_cls w init c) = classes w.
Proof. by destruct init. Qed.

(** ** [SlotsMeta.__new__] on a class body that defines [__init__] *)

Lemma SlotsMeta_new_init_inv w clsname bases dct init c w' :
  dct !! "__init__" = Some init →
  SlotsMeta_new w clsname bases dct = Ok (c, w') →
  ∃ parent init_args dct' w1,
    check_linear w bases = Ok tt ∧
    dct !! "__slots__" = None ∧
    parent_init_args_of w bases = Ok parent ∧
    init_arg_names w init = Ok init_args ∧
    patch_dict dct init_args parent = Ok dct' ∧
    type_new w clsname bases dct' = Ok (c, w1) ∧
    ((truthy (getattr_auto_init_args w init) = true ∧
      first_base_is_SlotsMeta w bases = Ok true ∧
      w' = set_cls w1 init c) ∨
     (truthy (getattr_auto_init_args w init) = false ∧ w' = w1 ∧
      ∃ spec, getfullargspec w init = Ok spec ∧
              init_args = FullArgSpec.args spec ∧
              all_None spec = true ∧
              FullArgSpec.kwonlyargs spec = [] ∧
              FullArgSpec.annotations spec = [])).
Proof.
  intros Hinit H. unfold SlotsMeta_new in H. rewrite Hinit in H.
  inv_result. unfold init_arg_names.
  destruct (getattr_auto_init_args w init) as [[|x l]|] eqn:E; simpl in H;
    inv_result;
    try match goal with
        | Hs : getfullargspec _ _ = Ok _ |- _ => rewrite Hs; simpl
        end;
    try match goal with
        | Hs : (let '(_, _) := ?p in _) = Ok _ |- _ =>
            destruct p as [new_class w1]; inv_result
        end;
    repeat match goal with u : unit |- _ => destruct u end; subst;
    do 4 eexists; repeat (split; [eassumption || reflexivity|]).
  1,3: right; eauto 10.
  left; eauto.
Qed.

Lemma new_class_lookup w clsname bases dct c w1 init :
  type_new w clsname bases dct = Ok (c, w1) →
  ∃ k, classes (set_cls w1 init c) !! c = Some k ∧ classes w1 !! c = Some k ∧
       cdict k = dct ∧ cmeta k = true.
Proof.
  intros (-> & _ & k & Hk & Hd & Hm)%type_new_Ok_inv.
  exists k. rewrite set_cls_classes, Hk.
  by rewrite lookup_app_r, Nat.sub_diag by lia.
Qed.

(** The statement shared by the claims on [__slots__] and [init_args]. *)
Lemma SlotsMeta_new_init_dict w clsname bases dct init c w' :
  dct !! "__init__" = Some init →
  SlotsMeta_new w clsname bases dct = Ok (c, w') →
  ∃ k init_args parent slots,
    classes w' !! c = Some k ∧
    init_arg_names w init = Ok init_args ∧
    parent_init_args_of w bases = Ok (EList parent) ∧
    default (ETuple []) (dct !! "slots") = ETuple slots ∧
    take (length parent) init_args = parent ∧
    cdict k = <["__slots__" := ETuple (drop (length parent) init_args ++ slots)]>
                (<["init_args" := EList init_args]> dct).
Proof.
  intros Hinit H.
  destruct (SlotsMeta_new_init_inv _ _ _ _ _ _ _ Hinit H)
    as (parent & init_args & dct' & w1 & _ & _ & Hp & Hn & Hpd & Ht & Hw).
  apply patch_dict_Ok_inv in Hpd as (p & slots & -> & Htake & Hs & ->).
  destruct (new_class_lookup _ _ _ _ _ _ init Ht) as (k & Hk1 & Hk2 & Hd & _).
  exists k, init_args, p, slots. repeat split; try done.
  destruct Hw as [(_ & _ & ->)|(_ & -> & _)]; done.
Qed.

(** ** The linearity check *)

Lemma mapM_Ok_inv {A B} (f : A → result B) (l : list A) (r : list B) :
  mapM f l = Ok r → Forall2 (λ x y, f x = Ok y) l r.
Proof.
  revert r. induction l as [|x l IH]; intros r H; simpl in H.
  - injection H as <-. constructor.
  - inv_result. constructor; auto.
Qed.

Lemma mapM_Ok_total {A B} (f : A → result B) (l : list A) :
  Forall (λ x, ∃ y, f x = Ok y) l → ∃ r, mapM f l = Ok r.
Proof.
  induction 1 as [|x l [y Hy] _ [r Hr]]; simpl.
  - by eexists.
  - rewrite Hy. simpl. rewrite Hr. simpl. by eexists.
Qed.

Lemma class_init_Ok_inv w c e :
  class_init w c = Ok e → class_getattr w c "__init__" = Ok e ∧ hashable e = true.
Proof.
  unfold class_init, py_hash. intros H. inv_result.
  destruct (hashable a) eqn:E; [|discriminate]. by injection H as <-.
Qed.

Lemma class_init_of_getattr w c e :
  class_getattr w c "__init__" = Ok e → hashable e = true → class_init w c = Ok e.
Proof. unfold class_init, py_hash. intros -> Hh. simpl. by rewrite Hh. Qed.

Lemma check_mro_Ok_inv w all_inits mro :
  check_mro w all_inits mro = Ok tt →
  ∀ c, c ∈ mro → ∃ e, class_init w c = Ok e ∧ e ∈ all_inits.
Proof.
  induction mro as [|x mro IH]; simpl; intros H c Hc.
  - by apply elem_of_nil in Hc.
  - inv_result. apply elem_of_cons in Hc as [->|Hc]; eauto.
Qed.

Lemma check_mro_wf w all_inits mro :
  Forall (λ c, ∃ e, class_init w c = Ok e) mro →
  check_mro w all_inits mro = Ok tt ∨
  ∃ c e, check_mro w all_inits mro = Raise (AssertionError (PClass c)) ∧
         c ∈ mro ∧ class_init w c = Ok e ∧ e ∉ all_inits.
Proof.
  induction 1 as [|x mro [e He] _ IH]; simpl; [by left|].
  rewrite He. simpl. destruct (decide (e ∈ all_inits)) as [Hin|Hin].
  - rewrite bool_decide_eq_true_2 by done. simpl.
    destruct IH as [->|(c & e' & -> & Hc & He' & Hn)]; [by left|].
    right. exists c, e'. split_and!; try done. by apply list_elem_of_further.
  - rewrite bool_decide_eq_false_2 by done. simpl.
    right. exists x, e. split_and!; try done. apply list_elem_of_here.
Qed.

Lemma check_bases_Ok_inv w all_inits bs :
  check_bases w all_inits bs = Ok tt →
  ∀ b mro c, b ∈ bs → getmro w b = Ok mro → c ∈ mro →
    ∃ e, class_init w c = Ok e ∧ e ∈ all_inits.
Proof.
  induction bs as [|x bs IH]; simpl; intros H b mro c Hb Hm Hc.
  - by apply elem_of_nil in Hb.
  - inv_result. destruct a0. apply elem_of_cons in Hb as [->|Hb]; [|eauto].
    rewrite Hm in Ha. injection Ha as <-.
    eapply check_mro_Ok_inv; eauto.
Qed.

Lemma check_bases_wf w all_inits bs :
  Forall (λ b, ∃ mro, getmro w b = Ok mro ∧
                      Forall (λ c, ∃ e, class_init w c = Ok e) mro) bs →
  check_bases w all_inits bs = Ok tt ∨
  ∃ b mro c e, check_bases w all_inits bs = Raise (AssertionError (PClass c)) ∧
               b ∈ bs ∧ getmro w b = Ok mro ∧ c ∈ mro ∧
               class_init w c = Ok e ∧ e ∉ all_inits.
Proof.
  induction 1 as [|x bs (mro & Hm & Hall) _ IH]; simpl; [by left|].
  rewrite Hm. simpl.
  destruct (check_mro_wf w all_inits mro Hall) as [->|(c & e & -> & Hc & He & Hn)];
    simpl.
  - destruct IH as [->|(b & mro' & c & e & -> & Hb & Hm' & Hc & He & Hn)]; [by left|].
    right. exists b, mro', c, e. split_and!; try done. by apply list_elem_of_further.
  - right. exists x, mro, c, e. split_and!; try done. apply list_elem_of_here.
Qed.

(** Well-formed worlds: what the check can rely on. *)
Lemma wf_class_spec w k :
  wf_class w k = true ↔
  (∀ e, cdict k !! "__init__" = Some e → hashable e = true) ∧
  is_Some (mro_lookup w (cmro k) "__init__") ∧
  Forall (λ c, ∃ e, class_init w c = Ok e) (cmro k) ∧
  (cmeta k = true → is_Some (mro_lookup w (cmro k) "init_args")).
Proof.
  unfold wf_class. rewrite !andb_true_iff, bool_decide_eq_true, forallb_forall.
  rewrite Forall_forall. split.
  - intros [[[H1 H2] H3] H4]. split_and!; try done.
    + intros e He. by rewrite He in H1.
    + intros c Hc. rewrite list_elem_of_In in Hc. specialize (H3 c Hc).
      destruct (class_init w c); [by eexists | discriminate].
    + intros Hm. rewrite Hm in H4. simpl in H4. by apply bool_decide_eq_true_1 in H4.
  - intros (H1 & H2 & H3 & H4). split_and!; try done.
    + destruct (cdict k !! "__init__"); [by apply H1 | done].
    + intros c Hc. rewrite <- list_elem_of_In in Hc.
      by destruct (H3 c Hc) as [e ->].
    + destruct (cmeta k); [|done]. simpl. by apply bool_decide_eq_true_2, H4.
Qed.

Lemma wf_world_spec w :
  wf_world w = true ↔
  is_Some (classes w !! object_id) ∧
  ∀ b k, classes w !! b = Some k → wf_class w k = true.
Proof.
  unfold wf_world. rewrite andb_true_iff, bool_decide_eq_true, forallb_forall.
  split; intros [Ho H]; (split; [done|]).
  - intros b k Hk. apply H, list_elem_of_In. by eapply list_elem_of_lookup_2.
  - intros k Hk. rewrite <- list_elem_of_In in Hk.
    apply list_elem_of_lookup_1 in Hk as [b Hb]. by eapply H.
Qed.

Lemma wf_world_base w b :
  wf_world w = true → b < length (classes w) →
  ∃ k, classes w !! b = Some k ∧ getmro w b = Ok (cmro k) ∧
       Forall (λ c, ∃ e, class_init w c = Ok e) (cmro k) ∧
       (cmeta k = true → is_Some (mro_lookup w (cmro k) "init_args")).
Proof.
  intros [_ Hwf]%wf_world_spec Hb. apply lookup_lt_is_Some_2 in Hb as [k Hk].
  exists k. unfold getmro. rewrite Hk. simpl.
  apply Hwf, wf_class_spec in Hk as (_ & _ & H3 & H4). done.
Qed.

Lemma valid_bases_Forall w bases :
  valid_bases w bases = true → Forall (λ b, b < length (classes w)) bases.
Proof.
  unfold valid_bases. rewrite forallb_forall. intros H.
  apply Forall_forall. intros b Hb. rewrite list_elem_of_In in Hb.
  specialize (H b Hb). by apply bool_decide_eq_true_1 in H.
Qed.

Lemma check_linear_Ok_inv w bases :
  check_linear w bases = Ok tt → init_linear w bases.
Proof.
  intros H b0 rest mro0 -> Hm0 b mro c Hb Hm Hc.
  destruct rest as [|b1 rest]; [by apply elem_of_nil in Hb|].
  change (check_linear w (b0 :: b1 :: rest))
    with (getmro w b0 ≫= λ m, mapM (class_init w) m ≫= λ all_inits,
            check_bases w all_inits (b1 :: rest)) in H.
  rewrite Hm0 in H. apply bind_Ok_inv in H as (? & [= <-] & H).
  apply bind_Ok_inv in H as (a & Ha & H).
  destruct (check_bases_Ok_inv _ _ _ H b mro c Hb Hm Hc) as (e & He & Hin).
  apply mapM_Ok_inv in Ha.
  destruct (proj1 (list_elem_of_lookup _ _) Hin) as [i Hi].
  destruct (Forall2_lookup_r _ _ _ _ _ Ha Hi) as (base & Hbase & Hbe).
  exists e, base. split_and!.
  - by apply class_init_Ok_inv in He as [? _].
  - by eapply list_elem_of_lookup_2.
  - by apply class_init_Ok_inv in Hbe as [? _].
Qed.

Lemma check_linear_wf w bases :
  wf_world w = true → valid_bases w bases = true →
  check_linear w bases = Ok tt ∨
  ∃ c, check_linear w bases = Raise (AssertionError (PClass c)) ∧
       offending w bases c.
Proof.
  intros Hwf Hv. apply valid_bases_Forall in Hv.
  destruct bases as [|b0 [|b1 rest]]; [by left..|].
  apply Forall_cons in Hv as [Hb0 Hv]. simpl.
  destruct (wf_world_base w b0 Hwf Hb0) as (k0 & _ & Hm0 & Hall0 & _).
  rewrite Hm0. simpl.
  destruct (mapM_Ok_total _ _ Hall0) as [all_inits Hmap]. rewrite Hmap. simpl.
  assert (Forall (λ b, ∃ mro, getmro w b = Ok mro ∧
            Forall (λ c, ∃ e, class_init w c = Ok e) mro) (b1 :: rest)) as Hrest.
  { eapply Forall_impl; [exact Hv|]. intros b Hb. simpl in Hb.
    destruct (wf_world_base w b Hwf Hb) as (k & _ & Hm & Hall & _). eauto. }
  destruct (check_bases_wf w all_inits _ Hrest)
    as [H|(b & mro & c & e & H & Hb & Hm & Hc & He & Hn)].
  - left. exact H.
  - right. exists c. split; [exact H|].
    exists b0, (b1 :: rest), (cmro k0), b, mro, e.
    apply class_init_Ok_inv in He as [He Hh]. split_and!; try done.
    intros base Hbase Hbe. apply Hn.
    apply (class_init_of_getattr _ _ _ Hbe) in Hh.
    apply mapM_Ok_inv in Hmap.
    destruct (proj1 (list_elem_of_lookup _ _) Hbase) as [i Hi].
    destruct (Forall2_lookup_l _ _ _ _ _ Hmap Hi) as (e' & He' & Hbe').
    rewrite Hh in Hbe'. injection Hbe' as <-. by eapply list_elem_of_lookup_2.
Qed.

(** ** What the new class holds *)

Lemma genuine_written_args w init init_args :
  genuine w init → init_arg_names w init = Ok init_args →
  written_args w init = Some init_args.
Proof.
  destruct init as [f| | |]; try done. intros (fo & Hfo & Hg).
  unfold init_arg_names, written_args. simpl. rewrite Hfo. simpl.
  destruct (f_code fo) as [body|fun_].
  - rewrite Hg. by intros [= <-].
  - destruct Hg as (fo' & go & Hfo' & Hgo & _ & Hspec & Hargs).
    rewrite Hfo in Hfo'. injection Hfo' as <-. rewrite Hargs, Hgo. simpl.
    destruct (FullArgSpec.args (f_spec go)) as [|a l] eqn:E.
    + rewrite Hspec. by intros [= <-].
    + by intros [= <-].
Qed.

Lemma take_prefix_eq {A} (p l : list A) :
  take (length p) l = p → l = p ++ drop (length p) l.
Proof. intros H. by rewrite <- H at 1; rewrite take_drop. Qed.



(** C6: when the class body defines [__init__], the new class has an
    attribute [init_args] which is the full list of positional parameter
    names of the initializer as written ([self] included: nothing is
    stripped), be it a plain function or a trampoline of [auto_init]. *)
Theorem init_args_attribute w clsname bases dct init c w' :
  dct !! "__init__" = Some init →
  SlotsMeta_new w clsname bases dct = Ok (c, w') →
  genuine w init →
  ∃ k init_args,
    classes w' !! c = Some k ∧
    cdict k !! "init_args" = Some (EList init_args) ∧
    written_args w init = Some init_args ∧
    (first_base_is_SlotsMeta w bases = Ok false → head init_args = Some "self").
Proof.
  intros Hinit H Hg.
  destruct (SlotsMeta_new_init_dict _ _ _ _ _ _ _ Hinit H)
    as (k & init_args & parent & slots & Hk & Hn & Hp & Hs & Htake & Hd).
  exists k, init_args. split_and!; try done.
  - rewrite Hd. by rewrite lookup_insert_ne, lookup_insert_eq.
  - by apply genuine_written_args.
  - intros Hb. unfold parent_init_args_of in Hp. rewrite Hb in Hp.
    injection Hp as <-. by rewrite (take_prefix_eq _ _ Htake).
Qed.

Lemma init_args_attribute_witness :
  ∃ k init_args,
    classes world_with_If !! 2 = Some k ∧
    cdict k !! "init_args" = Some (EList init_args) ∧
    written_args world_If_def (EFun 3) = Some init_args ∧
    (first_base_is_SlotsMeta world_If_def [1] = Ok false →
     head init_args = Some "self").
Proof.
  apply (init_args_attribute world_If_def "If" [1]
           {[ "__init__" := EFun 3 ]} (EFun 3) 2 world_with_If).
  - reflexivity.
  - vm_compute. reflexivity.
  - eexists. split; [reflexivity|]. simpl.
    do 2 eexists. split_and!; reflexivity.
Defined.

(** ** Rejections *)

Lemma parent_init_args_wf w bases :
  wf_world w = true → valid_bases w bases = true →
  ∃ e, parent_init_args_of w bases = Ok e.
Proof.
  intros Hwf Hv. apply valid_bases_Forall in Hv.
  destruct bases as [|b0 rest]; [by eexists|].
  apply Forall_cons in Hv as [Hb0 _].
  destruct (wf_world_base w b0 Hwf Hb0) as (k & Hk & Hm & _ & Hi).
  unfold parent_init_args_of, first_base_is_SlotsMeta, isinstance_SlotsMeta.
  rewrite Hk. simpl. destruct (cmeta k); [|by eexists].
  destruct (Hi eq_refl) as [e He]. exists e.
  unfold class_getattr. rewrite Hm. simpl. by rewrite He.
Qed.

Lemma shape_asserts_fail {A} (spec : FullArgSpec.t) (rest : result A) :
  variadic_or_kwonly_or_annotated spec →
  (assert (all_None spec) PNone;;
   assert (bool_decide (FullArgSpec.kwonlyargs spec = [])) PNone;;
   assert (bool_decide (FullArgSpec.annotations spec = [])) PNone;;
   rest) = Raise (AssertionError PNone).
Proof.
  destruct spec as [a va vk d ko kd an]. unfold variadic_or_kwonly_or_annotated, all_None.
  simpl. intros H.
  destruct va, vk, kd; simpl; try done; try (by destruct (String.eqb _ _));
    destruct ko; simpl; try done; destruct an; simpl; try done.
  by destruct H as [H|[H|[H|[H|H]]]].
Qed.

Lemma shape_asserts_pass (spec : FullArgSpec.t) :
  ¬ variadic_or_kwonly_or_annotated spec →
  all_None spec = true ∧ FullArgSpec.kwonlyargs spec = [] ∧
  FullArgSpec.annotations spec = [].
Proof.
  destruct spec as [a va vk d ko kd an].
  unfold variadic_or_kwonly_or_annotated, all_None. simpl. intros H.
  destruct va; [exfalso; apply H; by left|].
  destruct vk; [exfalso; apply H; by right; left|].
  destruct ko; [|exfalso; apply H; by right; right; left].
  destruct kd; [exfalso; apply H; by right; right; right; left|].
  destruct an; [done|exfalso; apply H; by right; right; right; right].
Qed.

Lemma patch_dict_not_prefix dct init_args parent :
  ¬ parent `prefix_of` init_args →
  patch_dict dct init_args (EList parent) = Raise (AssertionError PNone).
Proof.
  intros Hn. unfold patch_dict. simpl.
  rewrite bool_decide_eq_false_2; [done|].
  intros [= H]. apply Hn. exists (drop (length parent) init_args).
  by apply take_prefix_eq.
Qed.

(** C8: the [init_args] of a new class that defines [__init__] extends
    the [init_args] of its first base ([['self']] when that base is not a
    [SlotsMeta] class); an initializer whose parameters do not start with
    the parent's is rejected by an assertion when the class is created. *)
Theorem init_args_extend_parent w clsname bases dct init :
  dct !! "__init__" = Some init →
  (∀ c w', SlotsMeta_new w clsname bases dct = Ok (c, w') →
     ∃ k init_args parent,
       classes w' !! c = Some k ∧
       cdict k !! "init_args" = Some (EList init_args) ∧
       parent_init_args_of w bases = Ok (EList parent) ∧
       parent `prefix_of` init_args) ∧
  (wf_world w = true → valid_bases w bases = true →
   ∀ init_args parent,
     init_arg_names w init = Ok init_args →
     parent_init_args_of w bases = Ok (EList parent) →
     ¬ parent `prefix_of` init_args →
     ∃ p, SlotsMeta_new w clsname bases dct = Raise (AssertionError p)).
Proof.
  intros Hinit. split.
  - intros c w' H.
    destruct (SlotsMeta_new_init_dict _ _ _ _ _ _ _ Hinit H)
      as (k & init_args & parent & slots & Hk & Hn & Hp & Hs & Htake & Hd).
    exists k, init_args, parent. split_and!; try done.
    + rewrite Hd. by rewrite lookup_insert_ne, lookup_insert_eq.
    + exists (drop (length parent) init_args). by apply take_prefix_eq.
  - intros Hwf Hv init_args parent Hn Hp Hnp. unfold SlotsMeta_new.
    destruct (check_linear_wf w bases Hwf Hv) as [->|(c & -> & _)];
      [simpl|by eexists].
    destruct (dct !! "__slots__"); simpl; [by eexists|].
    rewrite Hinit, Hp. simpl. unfold init_arg_names in Hn.
    destruct (getattr_auto_init_args w init) as [[|x l]|]; simpl.
    + apply bind_Ok_inv in Hn as (spec & -> & [= <-]). simpl.
      destruct (all_None spec); simpl; [|by eexists].
      destruct (FullArgSpec.kwonlyargs spec); simpl; [|by eexists].
      destruct (FullArgSpec.annotations spec); simpl; [|by eexists].
      rewrite patch_dict_not_prefix by done. by eexists.
    + injection Hn as <-.
      destruct (first_base_is_SlotsMeta w bases) as [[]|] eqn:E; simpl;
        try by eexists.
      * rewrite patch_dict_not_prefix by done. by eexists.
      * unfold parent_init_args_of in Hp. by rewrite E in Hp.
    + apply bind_Ok_inv in Hn as (spec & -> & [= <-]). simpl.
      destruct (all_None spec); simpl; [|by eexists].
      destruct (FullArgSpec.kwonlyargs spec); simpl; [|by eexists].
      destruct (FullArgSpec.annotations spec); simpl; [|by eexists].
      rewrite patch_dict_not_prefix by done. by eexists.
Qed.

Lemma init_args_extend_parent_witness :
  ∃ p, SlotsMeta_new world_reorder_def "Swapped" [1] {[ "__init__" := EFun 2 ]}
       = Raise (AssertionError p).
Proof.
  refine (proj2 (init_args_extend_parent world_reorder_def "Swapped" [1]
                   {[ "__init__" := EFun 2 ]} (EFun 2) eq_refl)
            _ _ ["self"; "cond"; "site"] ["self"; "site"] _ _ _).
  - vm_compute. reflexivity.
  - vm_compute. reflexivity.
  - vm_compute. reflexivity.
  - vm_compute. reflexivity.
  - intros [k Hk]. discriminate Hk.
Defined.

(** C9: a class body that holds [__slots__] is always rejected by an
    assertion; the names of a class body reach [__slots__] only through
    [slots] (and the initializer's parameters). *)
Theorem slots_in_body_rejected w clsname bases dct :
  wf_world w = true → valid_bases w bases = true →
  is_Some (dct !! "__slots__") →
  ∃ p, SlotsMeta_new w clsname bases dct = Raise (AssertionError p).
Proof.
  intros Hwf Hv [e He]. unfold SlotsMeta_new.
  destruct (check_linear_wf w bases Hwf Hv) as [->|(c & -> & _)];
    [simpl|by eexists].
  rewrite He. simpl. by eexists.
Qed.

Lemma slots_in_body_rejected_witness :
  ∃ p, SlotsMeta_new world_with_Code "Stmt" [1]
         {[ "__slots__" := ETuple ["context"] ]} = Raise (AssertionError p).
Proof.
  apply (slots_in_body_rejected world_with_Code "Stmt" [1]
           {[ "__slots__" := ETuple ["context"] ]}).
  - vm_compute. reflexivity.
  - vm_compute. reflexivity.
  - eexists. reflexivity.
Defined.

(** C4: a class with several bases is created only if [__init__]
    inheritance is linear: every class in the MRO of a base after the
    first has an [__init__] found among those of the MRO of the first
    base; otherwise the creation fails with an assertion whose argument is
    the offending class. *)
Theorem init_inheritance_linear w clsname bases dct :
  1 < length bases →
  (∀ r, SlotsMeta_new w clsname bases dct = Ok r → init_linear w bases) ∧
  (wf_world w = true → valid_bases w bases = true →
   ¬ init_linear w bases →
   ∃ c, offending w bases c ∧
        SlotsMeta_new w clsname bases dct = Raise (AssertionError (PClass c))).
Proof.
  intros _. split.
  - intros r H. unfold SlotsMeta_new in H.
    apply bind_Ok_inv in H as ([] & H & _). by apply check_linear_Ok_inv.
  - intros Hwf Hv Hn.
    destruct (check_linear_wf w bases Hwf Hv) as [H|(c & H & Hc)].
    + by apply check_linear_Ok_inv in H.
    + exists c. split; [done|]. unfold SlotsMeta_new. by rewrite H.
Qed.

Lemma init_inheritance_linear_witness :
  ∃ c, offending world_with_Other [1; 2] c ∧
       SlotsMeta_new world_with_Other "Both" [1; 2] ∅
       = Raise (AssertionError (PClass c)).
Proof.
  refine (proj2 (init_inheritance_linear world_with_Other "Both" [1; 2] ∅ _) _ _ _).
  - simpl. lia.
  - vm_compute. reflexivity.
  - vm_compute. reflexivity.
  - intros H.
    destruct (H 1 [2] [1; 0] eq_refl eq_refl 2 [2; 0] 2) as (e & base & He & Hb & Hbe).
    + apply list_elem_of_here.
    + reflexivity.
    + apply list_elem_of_here.
    + vm_compute in He. injection He as <-.
      apply elem_of_cons in Hb as [->|Hb].
      * vm_compute in Hbe. discriminate Hbe.
      * apply elem_of_cons in Hb as [->|Hb].
        -- vm_compute in Hbe. discriminate Hbe.
        -- by apply elem_of_nil in Hb.
Defined.

(** C3, as the code has it: an initializer with variadic parameters,
    keyword-only parameters or annotations fails an assertion both when
    [auto_init] is applied to it and when [SlotsMeta] introspects it as a
    plain [__init__]; default values fail an assertion in [auto_init],
    while [SlotsMeta] goes on to create the class for a plain [__init__]
    of the accepted shape whatever its default values. *)
Theorem signature_shape_enforced :
  (∀ w fun_ spec,
     getfullargspec w (EFun fun_) = Ok spec →
     variadic_or_kwonly_or_annotated spec ∨ has_defaults spec →
     ∃ p, auto_init w fun_ = Raise (AssertionError p)) ∧
  (∀ w clsname bases dct init spec,
     wf_world w = true → valid_bases w bases = true →
     dct !! "__init__" = Some init →
     truthy (getattr_auto_init_args w init) = false →
     getfullargspec w init = Ok spec →
     variadic_or_kwonly_or_annotated spec →
     ∃ p, SlotsMeta_new w clsname bases dct = Raise (AssertionError p)) ∧
  (∀ w clsname bases dct init spec parent dct',
     dct !! "__init__" = Some init →
     truthy (getattr_auto_init_args w init) = false →
     getfullargspec w init = Ok spec →
     ¬ variadic_or_kwonly_or_annotated spec →
     check_linear w bases = Ok tt → dct !! "__slots__" = None →
     parent_init_args_of w bases = Ok parent →
     patch_dict dct (FullArgSpec.args spec) parent = Ok dct' →
     SlotsMeta_new w clsname bases dct = type_new w clsname bases dct').
Proof.
  split_and!.
  - intros w fun_ spec Hs H. unfold auto_init. rewrite Hs. simpl.
    destruct (all_None spec) eqn:Ea; simpl; [|by eexists].
    destruct H as [H|(d & ds & H)].
    + destruct (not_defaults spec); simpl; [|by eexists].
      pose proof (shape_asserts_fail spec (Ok tt) H) as Hf.
      rewrite Ea in Hf. simpl in Hf.
      destruct (FullArgSpec.kwonlyargs spec); simpl in *; [|by eexists].
      destruct (FullArgSpec.annotations spec); simpl in *; [done|by eexists].
    + unfold not_defaults. rewrite H. simpl. by eexists.
  - intros w clsname bases dct init spec Hwf Hv Hinit Hplain Hs H.
    unfold SlotsMeta_new.
    destruct (check_linear_wf w bases Hwf Hv) as [->|(c & -> & _)];
      [simpl|by eexists].
    destruct (dct !! "__slots__"); simpl; [by eexists|].
    rewrite Hinit. destruct (parent_init_args_wf w bases Hwf Hv) as [e ->].
    simpl. rewrite Hplain, Hs. simpl.
    rewrite (shape_asserts_fail spec _ H). by eexists.
  - intros w clsname bases dct init spec parent dct'
      Hinit Hplain Hs Hshape Hlin Hslots Hp Hpd.
    unfold SlotsMeta_new. rewrite Hlin, Hslots, Hinit, Hp. simpl.
    rewrite Hplain, Hs. simpl.
    destruct (shape_asserts_pass spec Hshape) as (-> & -> & ->). simpl.
    by rewrite Hpd.
Qed.

Lemma signature_shape_enforced_witness :
  (∃ p, auto_init world_default_def 1 = Raise (AssertionError p)) ∧
  (∃ p, SlotsMeta_new world_variadic_def "Any" [] {[ "__init__" := EFun 1 ]}
        = Raise (AssertionError p)) ∧
  SlotsMeta_new world_default_def "Lit" [] {[ "__init__" := EFun 1 ]}
  = type_new world_default_def "Lit" []
      (<["__slots__" := ETuple ["site"]]>
         (<["init_args" := EList ["self"; "site"]]> {[ "__init__" := EFun 1 ]})).
Proof.
  split_and!.
  - apply (proj1 signature_shape_enforced world_default_def 1 (f_spec default_init)).
    + reflexivity.
    + right. by do 2 eexists.
  - apply (proj1 (proj2 signature_shape_enforced) world_variadic_def "Any" []
             {[ "__init__" := EFun 1 ]} (EFun 1) (f_spec variadic_init)).
    + vm_compute. reflexivity.
    + reflexivity.
    + reflexivity.
    + reflexivity.
    + reflexivity.
    + left. discriminate.
  - apply (proj2 (proj2 signature_shape_enforced) world_default_def "Lit" []
             {[ "__init__" := EFun 1 ]} (EFun 1) (f_spec default_init)
             (EList ["self"])).
    + reflexivity.
    + reflexivity.
    + reflexivity.
    + intros [H|[H|[H|[H|H]]]]; by apply H.
    + reflexivity.
    + reflexivity.
    + reflexivity.
    + vm_compute. reflexivity.
Defined.

(** C3 as stated fails: a plain [__init__] with a default value is not
    rejected by [SlotsMeta]. *)
Lemma plain_init_with_default_accepted :
  has_defaults (f_spec default_init) ∧
  getfullargspec world_default_def (EFun 1) = Ok (f_spec default_init) ∧
  getattr_auto_init_args world_default_def (EFun 1) = None ∧
  (∃ c w', SlotsMeta_new world_default_def "Lit" [] {[ "__init__" := EFun 1 ]}
           = Ok (c, w')) ∧
  ¬ (∃ p, SlotsMeta_new world_default_def "Lit" [] {[ "__init__" := EFun 1 ]}
          = Raise (AssertionError p)).
Proof.
  split_and!.
  - by do 2 eexists.
  - reflexivity.
  - reflexivity.
  - do 2 eexists. vm_compute. reflexivity.
  - intros [p Hp]. vm_compute in Hp. discriminate Hp.
Qed.

(** ** Function attributes *)

Lemma made_by_auto_init_spec w t fun_ :
  made_by_auto_init w t fun_ →
  ∃ spec, getfullargspec w (EFun t) = Ok spec ∧ all_None spec = false.
Proof.
  intros (fo & go & Hfo & _ & _ & Hspec & _).
  exists trampoline_spec. split; [|done].
  simpl. rewrite Hfo. simpl. by rewrite Hspec.
Qed.

(** C5: the trampoline returned by [auto_init] carries the positional
    parameter names of the decorated function as [auto_init_args]; once a
    class whose [__init__] it is has been created through [SlotsMeta], it
    carries that new class as [cls]. *)
Theorem auto_init_attributes :
  (∀ w fun_ t w',
     auto_init w fun_ = Ok (t, w') →
     ∃ spec, getfullargspec w (EFun fun_) = Ok spec ∧
             getattr_auto_init_args w' (EFun t) = Some (FullArgSpec.args spec) ∧
             made_by_auto_init w' t fun_) ∧
  (∀ w clsname bases dct t fun_ c w',
     made_by_auto_init w t fun_ →
     dct !! "__init__" = Some (EFun t) →
     SlotsMeta_new w clsname bases dct = Ok (c, w') →
     classes w !! c = None ∧ is_Some (classes w' !! c) ∧
     ∃ fo, funs w' !! t = Some fo ∧ f_cls fo = Some c).
Proof.
  split.
  - intros w fun_ t w' H. unfold auto_init in H.
    apply bind_Ok_inv in H as (spec & Hs & H). exists spec. split; [done|].
    inv_result. simpl.
    assert (fun_ < length (funs w)) as Hlt by (by eapply lookup_lt_Some).
    split.
    + rewrite lookup_app_r, Nat.sub_diag by lia. done.
    + do 2 eexists. split_and!.
      * simpl. by rewrite lookup_app_r, Nat.sub_diag by lia.
      * simpl. by rewrite lookup_app_l by lia.
      * done.
      * done.
      * simpl. unfold getfullargspec in Hs. rewrite Ha3 in Hs. simpl in Hs.
        by injection Hs as <-.
  - intros w clsname bases dct t fun_ c w' Hm Hinit H.
    destruct (SlotsMeta_new_init_inv _ _ _ _ _ _ _ Hinit H)
      as (parent & init_args & dct' & w1 & _ & _ & _ & _ & _ & Ht & Hw).
    destruct (new_class_lookup _ _ _ _ _ _ (EFun t) Ht) as (k & Hk1 & Hk2 & _).
    pose proof (type_new_Ok_inv _ _ _ _ _ _ Ht) as (-> & Hf & _).
    destruct Hw as [(_ & _ & ->)|(Hfalsy & -> & spec & Hs & _ & Ha & _)].
    + split_and!; [by apply lookup_ge_None_2 | by eexists |].
      destruct Hm as (fo & _ & Hfo & _).
      simpl. rewrite Hf, list_lookup_alter_eq, Hfo. simpl. by eexists.
    + destruct (made_by_auto_init_spec _ _ _ Hm) as (spec' & Hs' & Ha').
      congruence.
Qed.

Lemma auto_init_attributes_witness :
  (∃ spec, getfullargspec
             (def_fun world_with_Code (pass_fun ["self"; "site"; "cond"; "body"])).2
             (EFun 2) = Ok spec ∧
           getattr_auto_init_args world_If_def (EFun 3)
             = Some (FullArgSpec.args spec) ∧
           made_by_auto_init world_If_def 3 2) ∧
  (classes world_If_def !! 2 = None ∧ is_Some (classes world_with_If !! 2) ∧
   ∃ fo, funs world_with_If !! 3 = Some fo ∧ f_cls fo = Some 2).
Proof.
  split.
  - apply (proj1 auto_init_attributes
             (def_fun world_with_Code (pass_fun ["self"; "site"; "cond"; "body"])).2
             2 3 world_If_def).
    vm_compute. reflexivity.
  - apply (proj2 auto_init_attributes world_If_def "If" [1]
             {[ "__init__" := EFun 3 ]} 3 2 2 world_with_If).
    + do 2 eexists. split_and!; reflexivity.
    + reflexivity.
    + vm_compute. reflexivity.
Defined.

(** ** The state monad *)

Lemma M_bind_unfold {A B} (m : M A) (f : A → M B) (s : state) :
  (m ≫= f) s = match m s with
               | (Ok a, s') => f a s'
               | (Raise e, s') => (Raise e, s')
               end.
Proof. reflexivity. Qed.

Lemma M_bind_Ok_inv {A B} (m : M A) (f : A → M B) (s s' : state) (b : B) :
  (m ≫= f) s = (Ok b, s') → ∃ a s1, m s = (Ok a, s1) ∧ f a s1 = (Ok b, s').
Proof.
  rewrite M_bind_unfold. destruct (m s) as [[a|e] s1]; [eauto | discriminate].
Qed.

Lemma M_bind_Ok {A B} (m : M A) (f : A → M B) (s : state) (a : A) (s1 : state) :
  m s = (Ok a, s1) → (m ≫= f) s = f a s1.
Proof. intros H. by rewrite M_bind_unfold, H. Qed.

Lemma lift_Ok_inv {A} (r : result A) (s s' : state) (a : A) :
  lift r s = (Ok a, s') → r = Ok a ∧ s' = s.
Proof. unfold lift. by intros [= -> ->]. Qed.

Lemma frames_lift {A} (r : result A) : frames (lift r).
Proof. intros h L. unfold lift. simpl. by rewrite app_nil_r. Qed.

Lemma frames_ret {A} (a : A) : frames (mret a : M A).
Proof. intros h L. unfold mret, M_ret. simpl. by rewrite app_nil_r. Qed.

Lemma frames_get_heap : frames get_heap.
Proof. intros h L. unfold get_heap. simpl. by rewrite app_nil_r. Qed.

Lemma frames_log ev : frames (log ev).
Proof. intros h L. reflexivity. Qed.

Lemma frames_run_body body args kwargs : frames (run_body body args kwargs).
Proof.
  intros h L. unfold run_body. simpl.
  destruct (body args kwargs h) as [r h']. simpl. by rewrite app_nil_r.
Qed.

Lemma frames_bind {A B} (m : M A) (f : A → M B) :
  frames m → (∀ a, frames (f a)) → frames (m ≫= f).
Proof.
  intros Hm Hf h L. rewrite !M_bind_unfold, (Hm h L).
  destruct (m {| sheap := h; slog := [] |}) as [[a|e] [h1 L1]]; simpl; [|done].
  rewrite (Hf a h1 (L ++ L1)), (Hf a h1 L1).
  destruct (f a {| sheap := h1; slog := [] |}) as [r [h2 L2]]. simpl.
  by rewrite app_assoc.
Qed.

Lemma frames_setattr w self name arg : frames (setattr w self name arg).
Proof.
  intros h L. unfold setattr. simpl.
  destruct self as [| |o]; simpl; try by rewrite app_nil_r.
  destruct (h !! o) as [i|]; simpl; [|by rewrite app_nil_r].
  destruct (getmro w (icls i)) as [mro|e]; simpl; [|by rewrite app_nil_r].
  destruct (has_dict w mro || bool_decide (name ∈ slot_names w mro)); simpl;
    [done | by rewrite app_nil_r].
Qed.

Lemma frames_setattrs w self pairs : frames (setattrs w self pairs).
Proof.
  induction pairs as [|[name arg] pairs IH]; simpl.
  - apply frames_ret.
  - apply frames_bind; [apply frames_setattr | done].
Qed.

Lemma frames_call fuel w f args kwargs : frames (call fuel w f args kwargs).
Proof.
  revert f args kwargs. induction fuel as [|fuel IH]; intros f args kwargs; simpl.
  - apply frames_lift.
  - destruct f as [fid| | |]; try apply frames_lift.
    destruct (funs w !! fid) as [fo|]; [|apply frames_lift].
    destruct (f_code fo) as [body|fun_].
    + apply frames_bind; [apply frames_log | intros _; apply frames_run_body].
    + repeat (apply frames_bind;
              [first [apply frames_log | apply frames_lift | apply frames_get_heap
                     | apply frames_setattrs | apply IH] | intros ?]).
      apply IH.
Qed.

(** Running from a given log is running from the empty log and
    prepending. *)
Lemma call_frame fuel w f args kwargs h L r s' :
  call fuel w f args kwargs {| sheap := h; slog := L |} = (r, s') →
  ∃ L', call fuel w f args kwargs {| sheap := h; slog := [] |}
          = (r, {| sheap := sheap s'; slog := L' |}) ∧
        slog s' = L ++ L'.
Proof.
  rewrite (frames_call fuel w f args kwargs h L).
  destruct (call fuel w f args kwargs {| sheap := h; slog := [] |})
    as [r' [h' L']]. simpl. intros [= -> <-]. simpl. by exists L'.
Qed.

(** ** Assignments *)

Lemma assign_heap_nil o h : assign_heap o [] h = h.
Proof.
  unfold assign_heap. simpl. apply list_eq. intros j.
  destruct (decide (j = o)) as [->|Hne].
  - rewrite list_lookup_alter_eq. by destruct (h !! o) as [[]|].
  - by rewrite list_lookup_alter_ne.
Qed.

Lemma assign_heap_cons o name arg pairs h i :
  h !! o = Some i →
  assign_heap o pairs
    (<[o := {| icls := icls i; iattrs := <[name := arg]> (iattrs i) |}]> h)
  = assign_heap o ((name, arg) :: pairs) h.
Proof.
  intros Hi. unfold assign_heap. apply list_eq. intros j.
  assert (o < length h) as Hlt by (by eapply lookup_lt_Some).
  destruct (decide (j = o)) as [->|Hne].
  - rewrite !list_lookup_alter_eq, list_lookup_insert_eq, Hi by done. done.
  - by rewrite !list_lookup_alter_ne, list_lookup_insert_ne.
Qed.

Lemma assign_heap_app o pairs1 pairs2 h :
  assign_heap o pairs2 (assign_heap o pairs1 h) = assign_heap o (pairs1 ++ pairs2) h.
Proof.
  unfold assign_heap. apply list_eq. intros j.
  destruct (decide (j = o)) as [->|Hne].
  - rewrite !list_lookup_alter_eq. destruct (h !! o) as [i|]; simpl; [|done].
    unfold assign_attrs. by rewrite foldl_app.
  - by rewrite !list_lookup_alter_ne.
Qed.

Lemma setattr_Ok_inv w o name arg s s' :
  setattr w (VObj o) name arg s = (Ok tt, s') →
  ∃ i, sheap s !! o = Some i ∧ assignable w (sheap s) o name ∧
       s' = {| sheap := <[o := {| icls := icls i;
                                  iattrs := <[name := arg]> (iattrs i) |}]> (sheap s);
               slog := slog s ++ [ESetattr o name arg] |}.
Proof.
  unfold setattr, assignable.
  destruct (sheap s !! o) as [i|] eqn:Hi; [|discriminate].
  destruct (getmro w (icls i)) as [mro|e] eqn:Hm; [|discriminate].
  destruct (has_dict w mro || bool_decide (name ∈ slot_names w mro)) eqn:E;
    [|discriminate].
  intros [= <-]. exists i. split_and!; eauto.
Qed.

Lemma setattrs_Ok_inv w o pairs s s' :
  setattrs w (VObj o) pairs s = (Ok tt, s') →
  sheap s' = assign_heap o pairs (sheap s) ∧
  slog s' = slog s ++ assign_events o pairs ∧
  (∀ name arg, (name, arg) ∈ pairs → assignable w (sheap s) o name).
Proof.
  revert s. induction pairs as [|[name arg] pairs IH]; intros s H; simpl in H.
  - injection H as <-. rewrite assign_heap_nil. simpl. rewrite app_nil_r.
    split_and!; try done. intros ?? []%elem_of_nil.
  - apply M_bind_Ok_inv in H as ([] & s1 & H1 & H).
    apply setattr_Ok_inv in H1 as (i & Hi & Ha & ->).
    apply IH in H as (Hh & Hl & Has). simpl in *.
    split_and!.
    + rewrite Hh. by apply assign_heap_cons.
    + rewrite Hl, <- app_assoc. done.
    + intros n a [[= -> ->]|Hin]%elem_of_cons; [done|].
      destruct (Has n a Hin) as (i' & mro & Hi' & Hm & Hok).
      assert (o < length (sheap s)) as Hlt by (by eapply lookup_lt_Some).
      rewrite list_lookup_insert_eq in Hi' by done. injection Hi' as <-.
      simpl in Hm. by exists i, mro.
Qed.

Lemma setattrs_assignable w o pairs s :
  (∀ name arg, (name, arg) ∈ pairs → assignable w (sheap s) o name) →
  setattrs w (VObj o) pairs s
  = (Ok tt, {| sheap := assign_heap o pairs (sheap s);
               slog := slog s ++ assign_events o pairs |}).
Proof.
  revert s. induction pairs as [|[name arg] pairs IH]; intros [h L] H; simpl.
  - by rewrite assign_heap_nil, app_nil_r.
  - rewrite M_bind_unfold.
    destruct (H name arg (list_elem_of_here _ _)) as (i & mro & Hi & Hm & Hok).
    simpl in Hi. unfold setattr. simpl. rewrite Hi, Hm, Hok.
    rewrite IH; simpl.
    + by rewrite (assign_heap_cons _ _ _ _ _ _ Hi), <- app_assoc.
    + intros n a Hin.
      destruct (H n a (list_elem_of_further _ _ _ Hin)) as (i' & mro' & Hi' & Hm' & Hok').
      simpl in Hi'. rewrite Hi in Hi'. injection Hi' as <-.
      assert (o < length h) as Hlt by (by eapply lookup_lt_Some).
      eexists _, mro'. rewrite list_lookup_insert_eq by done. split_and!; done.
Qed.

(** With distinct names, every pair is found in the attributes. *)
Lemma assign_attrs_lookup pairs m name arg :
  NoDup pairs.*1 → (name, arg) ∈ pairs →
  assign_attrs pairs m !! name = Some arg.
Proof.
  unfold assign_attrs. revert m.
  induction pairs as [|[n a] pairs IH]; intros m Hnd Hin; simpl.
  - by apply elem_of_nil in Hin.
  - apply NoDup_cons in Hnd as [Hn Hnd].
    apply elem_of_cons in Hin as [[= -> ->]|Hin]; [|by apply IH].
    clear IH. revert m. induction pairs as [|[n' a'] pairs IH]; intros m; simpl.
    + apply lookup_insert_eq.
    + simpl in Hn. apply not_elem_of_cons in Hn as [Hne Hn].
      apply NoDup_cons in Hnd as [_ Hnd].
      rewrite insert_insert_ne by done. by apply IH.
Qed.

(** ** The trampoline *)

Lemma call_trampoline k w t __init fun_ args kwargs :
  funs w !! t = Some __init → f_code __init = Trampoline fun_ →
  call (S k) w (EFun t) args kwargs =
    (log (ETrampoline t);;
     cls ← lift (from_option
       (AssertionError (PMsg "@auto_init only allowed in SlotsMeta classes"))
       (f_cls __init));
     self ← lift (from_option IndexError (head args));
     h ← get_heap;
     sup ← lift (super w h cls self);
     sup_init_args ← lift (from_option AttributeError (mro_lookup w sup "init_args"));
     super_nargs ← lift (py_len sup_init_args);
     sup_init ← lift (from_option AttributeError (mro_lookup w sup "__init__"));
     call k w sup_init (self :: drop 1 (take super_nargs args)) [];;
     h ← get_heap;
     names ← lift (self_init_args_from w h self super_nargs);
     setattrs w self (zip names (drop super_nargs args));;
     setattrs w self kwargs;;
     call k w (EFun fun_) args kwargs).
Proof. intros Hf Hc. simpl. by rewrite Hf, Hc. Qed.

Lemma super_Ok_inv w h cls self sup :
  super w h cls self = Ok sup →
  ∃ o i mro, self = VObj o ∧ h !! o = Some i ∧ getmro w (icls i) = Ok mro ∧
             after cls mro = Some sup.
Proof.
  destruct self as [| |o]; simpl; try discriminate.
  intros H. inv_result. by exists o, a, a0.
Qed.

Lemma trampoline_Ok_inv k w t fo fun_ args kwargs s s' :
  funs w !! t = Some fo → f_code fo = Trampoline fun_ →
  call (S k) w (EFun t) args kwargs s = (Ok tt, s') →
  ∃ cls o sup sup_init_args n sup_init names s1,
    f_cls fo = Some cls ∧ head args = Some (VObj o) ∧
    super w (sheap s) cls (VObj o) = Ok sup ∧
    mro_lookup w sup "init_args" = Some sup_init_args ∧
    py_len sup_init_args = Ok n ∧
    mro_lookup w sup "__init__" = Some sup_init ∧
    call k w sup_init (VObj o :: drop 1 (take n args)) []
      {| sheap := sheap s; slog := slog s ++ [ETrampoline t] |} = (Ok tt, s1) ∧
    self_init_args_from w (sheap s1) (VObj o) n = Ok names ∧
    (∀ name arg, (name, arg) ∈ zip names (drop n args) →
       assignable w (sheap s1) o name) ∧
    (∀ name arg, (name, arg) ∈ kwargs →
       assignable w (assign_heap o (zip names (drop n args)) (sheap s1)) o name) ∧
    call k w (EFun fun_) args kwargs
      {| sheap := assign_heap o kwargs
                    (assign_heap o (zip names (drop n args)) (sheap s1));
         slog := slog s1 ++ assign_events o (zip names (drop n args))
                         ++ assign_events o kwargs |} = (Ok tt, s').
Proof.
  intros Hf Hc H. rewrite (call_trampoline _ _ _ _ _ _ _ Hf Hc) in H.
  apply M_bind_Ok_inv in H as ([] & s0 & [= <-] & H).
  apply M_bind_Ok_inv in H as (cls & ? & [Hcls ->]%lift_Ok_inv & H).
  apply M_bind_Ok_inv in H as (self & ? & [Hself ->]%lift_Ok_inv & H).
  apply M_bind_Ok_inv in H as (h & ? & [= <- <-] & H).
  apply M_bind_Ok_inv in H as (sup & ? & [Hsup ->]%lift_Ok_inv & H).
  apply M_bind_Ok_inv in H as (sia & ? & [Hsia ->]%lift_Ok_inv & H).
  apply M_bind_Ok_inv in H as (n & ? & [Hn ->]%lift_Ok_inv & H).
  apply M_bind_Ok_inv in H as (sup_init & ? & [Hsi ->]%lift_Ok_inv & H).
  apply M_bind_Ok_inv in H as ([] & s1 & Hcall & H).
  apply M_bind_Ok_inv in H as (h1 & ? & [= <- <-] & H).
  apply M_bind_Ok_inv in H as (names & ? & [Hnames ->]%lift_Ok_inv & H).
  apply M_bind_Ok_inv in H as ([] & s2 & Hpos & H).
  apply M_bind_Ok_inv in H as ([] & s3 & Hkw & H).
  simpl in Hsup.
  destruct (super_Ok_inv _ _ _ _ _ Hsup) as (o & i & mro & -> & _).
  apply setattrs_Ok_inv in Hpos as (Hh2 & Hl2 & Ha2).
  apply setattrs_Ok_inv in Hkw as (Hh3 & Hl3 & Ha3).
  inv_result.
  exists cls, o, sup, sia, n, sup_init, names, s1.
  split_and!; try done.
  - by rewrite <- Hh2.
  - destruct s3 as [h3 L3]. simpl in Hh3, Hl3. subst h3 L3.
    by rewrite Hh2, Hl2, <- app_assoc in H.
Qed.

Lemma leading_args {A} (x : A) (args : list A) (n : nat) :
  head args = Some x → 0 < n → x :: drop 1 (take n args) = take n args.
Proof.
  destruct args as [|y rest]; [discriminate|]. intros [= ->] Hn.
  destruct n as [|n]; [lia|]. done.
Qed.

(** When the superclass initializer raises, so does the trampoline, in
    the state that call left: nothing is assigned and the decorated
    function is not called. *)
Lemma trampoline_super_raises
    k w t fo fun_ cls o sup sup_init_args n sup_init args kwargs s e s1 :
  funs w !! t = Some fo → f_code fo = Trampoline fun_ →
  f_cls fo = Some cls → head args = Some (VObj o) →
  super w (sheap s) cls (VObj o) = Ok sup →
  mro_lookup w sup "init_args" = Some sup_init_args →
  py_len sup_init_args = Ok n →
  mro_lookup w sup "__init__" = Some sup_init →
  call k w sup_init (VObj o :: drop 1 (take n args)) []
    {| sheap := sheap s; slog := slog s ++ [ETrampoline t] |} = (Raise e, s1) →
  call (S k) w (EFun t) args kwargs s = (Raise e, s1).
Proof.
  intros Hf Hc Hcls Hself Hsup Hsia Hn Hsi Hcall.
  rewrite (call_trampoline _ _ _ _ _ _ _ Hf Hc).
  rewrite (M_bind_Ok (log _) _ _ tt _ eq_refl).
  rewrite (M_bind_Ok _ _ _ cls _) by (by rewrite Hcls).
  rewrite (M_bind_Ok _ _ _ (VObj o) _) by (by rewrite Hself).
  rewrite (M_bind_Ok get_heap _ _ _ _ eq_refl). cbn [sheap].
  rewrite (M_bind_Ok _ _ _ sup _) by (by rewrite Hsup).
  rewrite (M_bind_Ok _ _ _ sup_init_args _) by (by rewrite Hsia).
  rewrite (M_bind_Ok _ _ _ n _) by (by rewrite Hn).
  rewrite (M_bind_Ok _ _ _ sup_init _) by (by rewrite Hsi).
  by rewrite M_bind_unfold, Hcall.
Qed.





(** In that call the keyword argument is stored although the decorated
    function then rejects it. *)
Example kwargs_stored_then_body_raises :
  ∃ s', call 3 world_with_If (EFun 3) args_If kwargs_ctx state_If
          = (Raise TypeError, s') ∧
        (iattrs <$> sheap s' !! 0) ≫= (.!! "context") = Some (VInt 9) ∧
        slog s' = [ETrampoline 3; ECall 1 [VObj 0; VInt 1] [];
                   ESetattr 0 "cond" (VInt 2); ESetattr 0 "body" (VInt 3);
                   ESetattr 0 "context" (VInt 9);
                   ECall 2 args_If kwargs_ctx].
Proof. eexists. split_and!; vm_compute; reflexivity. Qed.

(** ** When the module's code runs *)


Lemma artifact_steps_app L1 L2 :
  artifact_steps (L1 ++ L2) = artifact_steps L1 ++ artifact_steps L2.
Proof. apply List.filter_app. Qed.



(** ** Well-formed worlds are what the module builds *)

Lemma pick_head_elem seqs all c :
  pick_head seqs all = Some c → ∃ s, s ∈ seqs ∧ head s = Some c.
Proof.
  induction seqs as [|[|x s] seqs IH]; simpl; intros H.
  - discriminate.
  - destruct (IH H) as (s' & Hs' & Hh). exists s'. split; [|done].
    by apply list_elem_of_further.
  - destruct (in_tail x all).
    + destruct (IH H) as (s' & Hs' & Hh). exists s'. split; [|done].
      by apply list_elem_of_further.
    + injection H as <-. exists (x :: s). split; [apply list_elem_of_here | done].
Qed.

Lemma elem_of_drop_head c s x : x ∈ drop_head c s → x ∈ s.
Proof.
  destruct s as [|h t]; simpl; [done|].
  case_bool_decide; [|done]. by apply list_elem_of_further.
Qed.

Lemma elem_of_drop_head_ne c s x : x ∈ s → x ≠ c → x ∈ drop_head c s.
Proof.
  destruct s as [|h t]; simpl; [done|].
  case_bool_decide as Hh; [|done]. subst h.
  intros [->|Hx]%elem_of_cons Hne; done.
Qed.

(** The linearisation holds the classes of its inputs and no other. *)
Lemma mro_merge_elem fuel seqs out :
  mro_merge fuel seqs = Some out →
  ∀ x, x ∈ out ↔ ∃ s, s ∈ seqs ∧ x ∈ s.
Proof.
  revert seqs out. induction fuel as [|fuel IH]; intros seqs out; simpl.
  - destruct (forallb (λ s, bool_decide (s = [])) seqs) eqn:E; [|discriminate].
    intros [= <-] x. split; [by intros ?%elem_of_nil|].
    intros (s & Hs & Hx). rewrite forallb_forall in E.
    rewrite list_elem_of_In in Hs. apply E, bool_decide_eq_true_1 in Hs.
    subst s. by apply elem_of_nil in Hx.
  - destruct (forallb (λ s, bool_decide (s = [])) seqs) eqn:E.
    + intros [= <-] x. split; [by intros ?%elem_of_nil|].
      intros (s & Hs & Hx). rewrite forallb_forall in E.
      rewrite list_elem_of_In in Hs. apply E, bool_decide_eq_true_1 in Hs.
      subst s. by apply elem_of_nil in Hx.
    + destruct (pick_head seqs seqs) as [c|] eqn:Hp; simpl; [|discriminate].
      destruct (mro_merge fuel (drop_head c <$> seqs)) as [rest|] eqn:Hm;
        simpl; [|discriminate].
      intros [= <-] x. specialize (IH _ _ Hm x). split.
      * intros [->|Hx]%elem_of_cons.
        -- destruct (pick_head_elem _ _ _ Hp) as (s & Hs & Hh).
           exists s. split; [done|]. destruct s; [discriminate|].
           injection Hh as ->. apply list_elem_of_here.
        -- apply IH in Hx as (s' & Hs' & Hx).
           apply list_elem_of_fmap in Hs' as (s & -> & Hs).
           exists s. split; [done|]. by eapply elem_of_drop_head.
      * intros (s & Hs & Hx). destruct (decide (x = c)) as [->|Hne].
        -- apply list_elem_of_here.
        -- apply list_elem_of_further, IH. exists (drop_head c s). split.
           ++ apply list_elem_of_fmap. by exists s.
           ++ by apply elem_of_drop_head_ne.
Qed.

Lemma mro_lookup_Some_inv w mro name e :
  mro_lookup w mro name = Some e →
  ∃ c k, c ∈ mro ∧ classes w !! c = Some k ∧ cdict k !! name = Some e.
Proof.
  induction mro as [|c mro IH]; simpl; [discriminate|].
  destruct (classes w !! c) as [k|] eqn:Hk.
  - destruct (cdict k !! name) as [e'|] eqn:He.
    + intros [= ->]. exists c, k. split_and!; try done. apply list_elem_of_here.
    + intros (c' & k' & Hc & H)%IH. exists c', k'. split; [|done].
      by apply list_elem_of_further.
  - intros (c' & k' & Hc & H)%IH. exists c', k'. split; [|done].
    by apply list_elem_of_further.
Qed.

Lemma mro_lookup_is_Some w mro name c k :
  c ∈ mro → classes w !! c = Some k → is_Some (cdict k !! name) →
  is_Some (mro_lookup w mro name).
Proof.
  intros Hc Hk Hn. induction mro as [|c' mro IH]; simpl.
  - by apply elem_of_nil in Hc.
  - destruct (decide (c' = c)) as [->|Hne].
    + rewrite Hk. destruct Hn as [e ->]. by eexists.
    + apply elem_of_cons in Hc as [->|Hc]; [done|].
      destruct (classes w !! c') as [k'|]; [|by apply IH].
      destruct (cdict k' !! name); [by eexists | by apply IH].
Qed.

Lemma mro_lookup_extend w w' l mro name :
  classes w' = classes w ++ l →
  (∀ c, c ∈ mro → c < length (classes w)) →
  mro_lookup w' mro name = mro_lookup w mro name.
Proof.
  intros Hw'. induction mro as [|c mro IH]; simpl; intros Hv; [done|].
  rewrite Hw', lookup_app_l by apply Hv, list_elem_of_here.
  rewrite IH; [done|]. intros c' Hc'. by apply Hv, list_elem_of_further.
Qed.

Lemma class_init_valid w c e : class_init w c = Ok e → c < length (classes w).
Proof.
  unfold class_init, class_getattr, getmro. intros H. inv_result.
  destruct (classes w !! c) eqn:E; [|discriminate]. by eapply lookup_lt_Some.
Qed.

Lemma wf_valid_mro w b k c :
  wf_world w = true → classes w !! b = Some k → c ∈ cmro k →
  c < length (classes w).
Proof.
  intros [_ Hwf]%wf_world_spec Hk Hc.
  apply Hwf, wf_class_spec in Hk as (_ & _ & H3 & _).
  rewrite Forall_forall in H3. destruct (H3 c Hc) as [e He].
  by eapply class_init_valid.
Qed.

Lemma class_init_extend w w' l c :
  wf_world w = true → classes w' = classes w ++ l → c < length (classes w) →
  class_init w' c = class_init w c.
Proof.
  intros Hwf Hw' Hc. unfold class_init, class_getattr, getmro.
  rewrite Hw', lookup_app_l by done.
  destruct (classes w !! c) as [k|] eqn:Hk; [|done]. simpl.
  rewrite (mro_lookup_extend w w' l); [done..|].
  intros c' Hc'. by eapply wf_valid_mro.
Qed.

Lemma wf_class_extend w w' l b k :
  wf_world w = true → classes w' = classes w ++ l →
  classes w !! b = Some k → wf_class w' k = true.
Proof.
  intros Hwf Hw' Hk.
  pose proof (proj1 (wf_world_spec w) Hwf) as [_ Hall].
  pose proof (proj1 (wf_class_spec w k) (Hall _ _ Hk)) as (H1 & H2 & H3 & H4).
  assert (∀ c, c ∈ cmro k → c < length (classes w)) as Hv
    by (intros c Hc; by eapply wf_valid_mro).
  apply wf_class_spec. split_and!; try done.
  - by rewrite (mro_lookup_extend w w' l).
  - rewrite Forall_forall in *. intros c Hc.
    rewrite (class_init_extend w w' l) by auto. auto.
  - intros Hm. rewrite (mro_lookup_extend w w' l) by done. auto.
Qed.

(** In a well-formed world every [__init__] that a lookup finds is
    hashable. *)
Lemma wf_lookup_hashable w mro e :
  wf_world w = true → mro_lookup w mro "__init__" = Some e → hashable e = true.
Proof.
  intros [_ Hwf]%wf_world_spec (c & k & _ & Hk & He)%mro_lookup_Some_inv.
  apply Hwf, wf_class_spec in Hk as (H1 & _). by apply H1.
Qed.

Lemma wf_class_init w b :
  wf_world w = true → b < length (classes w) → ∃ e, class_init w b = Ok e.
Proof.
  intros Hwf Hb. pose proof Hwf as [_ Hall]%wf_world_spec.
  apply lookup_lt_is_Some_2 in Hb as [k Hk].
  pose proof (proj1 (wf_class_spec w k) (Hall _ _ Hk)) as (_ & [e He] & _).
  exists e. unfold class_init, class_getattr, getmro. rewrite Hk. simpl.
  rewrite He. simpl. unfold py_hash.
  by rewrite (wf_lookup_hashable _ _ _ Hwf He).
Qed.

Lemma class_init_lookup w c k e :
  classes w !! c = Some k → mro_lookup w (cmro k) "__init__" = Some e →
  hashable e = true → class_init w c = Ok e.
Proof.
  intros Hk He Hh. unfold class_init, class_getattr, getmro, py_hash.
  rewrite Hk. simpl. rewrite He. simpl. by rewrite Hh.
Qed.

(** [type.__new__] keeps the world well formed when the new dictionary
    holds a hashable [__init__] or none, and holds [init_args] unless the
    first base is a [SlotsMeta] class. *)
Lemma type_new_wf w clsname bases dct c w' :
  wf_world w = true → valid_bases w bases = true →
  (∀ e, dct !! "__init__" = Some e → hashable e = true) →
  (is_Some (dct !! "init_args") ∨ first_base_is_SlotsMeta w bases = Ok true) →
  type_new w clsname bases dct = Ok (c, w') →
  wf_world w' = true.
Proof.
  intros Hwf Hv HD1 HD2 H.
  pose proof Hwf as [Hobj Hall]%wf_world_spec.
  apply valid_bases_Forall in Hv.
  unfold type_new in H.
  set (bases' := match bases with [] => [object_id] | _ => bases end) in H.
  assert (Forall (λ b, b < length (classes w)) bases') as Hv'.
  { subst bases'. destruct bases; [|done].
    apply Forall_singleton. by apply lookup_lt_is_Some_1. }
  assert (∃ b0, b0 ∈ bases' ∧ (first_base_is_SlotsMeta w bases = Ok true →
            head bases = Some b0)) as (b0 & Hb0 & Hb0').
  { subst bases'. destruct bases as [|b rest].
    - exists object_id. split; [apply list_elem_of_here | discriminate].
    - exists b. split; [apply list_elem_of_here | done]. }
  apply bind_Ok_inv in H as (mros & Hmros & H).
  apply bind_Ok_inv in H as (mro & Hmro & H).
  apply from_option_Ok_inv in Hmro. injection H as <- <-.
  apply mapM_Ok_inv in Hmros.
  pose proof (mro_merge_elem _ _ _ Hmro) as Hel.
  set (knew := {| cname := clsname; cmeta := true; cbases := bases';
                  cmro := length (classes w) :: mro; cdict := dct |}).
  set (w' := {| classes := classes w ++ [knew]; funs := funs w |}).
  assert (classes w' = classes w ++ [knew]) as Hw' by done.
  (* the classes of the MRO of a base are in the new MRO *)
  assert (∀ b k x, b ∈ bases' → classes w !! b = Some k → x ∈ cmro k → x ∈ mro)
    as Hsub.
  { intros b k x Hb Hk Hx. apply Hel. exists (cmro k). split; [|done].
    apply elem_of_app. left.
    apply list_elem_of_lookup_1 in Hb as [i Hi].
    destruct (Forall2_lookup_l _ _ _ _ _ Hmros Hi) as (m & Hm & Hg).
    unfold getmro in Hg. rewrite Hk in Hg. injection Hg as <-.
    by eapply list_elem_of_lookup_2. }
  (* every class of the new MRO is an old, valid class *)
  assert (∀ x, x ∈ mro → ∃ e, class_init w x = Ok e) as Hold.
  { intros x (s & [Hs|Hs]%elem_of_app & Hx)%Hel.
    - apply list_elem_of_lookup_1 in Hs as [i Hi].
      destruct (Forall2_lookup_r _ _ _ _ _ Hmros Hi) as (b & Hb & Hg).
      unfold getmro in Hg. destruct (classes w !! b) as [k|] eqn:Hk; [|discriminate].
      injection Hg as <-.
      apply Hall, wf_class_spec in Hk as (_ & _ & H3 & _).
      rewrite Forall_forall in H3. auto.
    - apply list_elem_of_singleton in Hs as ->.
      rewrite Forall_forall in Hv'. apply wf_class_init; auto. }
  assert (∀ x, x ∈ mro → x < length (classes w)) as Hvalid.
  { intros x [e He]%Hold. by eapply class_init_valid. }
  (* a lookup that succeeds in the MRO of a base succeeds in the new MRO *)
  assert (∀ b k name, b ∈ bases' → classes w !! b = Some k →
            is_Some (mro_lookup w (cmro k) name) →
            is_Some (mro_lookup w mro name)) as Hfind.
  { intros b k name Hb Hk [e (c1 & k1 & Hc1 & Hk1 & He)%mro_lookup_Some_inv].
    eapply (mro_lookup_is_Some _ _ _ c1 k1); eauto. }
  assert (is_Some (mro_lookup w' (length (classes w) :: mro) "__init__")) as Hinit.
  { simpl. rewrite lookup_app_r, Nat.sub_diag by lia. simpl.
    destruct (dct !! "__init__"); [by eexists|].
    rewrite (mro_lookup_extend w w' [knew]) by done.
    rewrite Forall_forall in Hv'.
    destruct (lookup_lt_is_Some_2 _ _ (Hv' _ Hb0)) as [k0 Hk0].
    apply (Hfind b0 k0); try done.
    by apply Hall, wf_class_spec in Hk0 as (_ & ? & _). }
  apply wf_world_spec. split.
  { simpl. destruct Hobj as [k Hk]. exists k. by apply lookup_app_l_Some. }
  intros b k Hk. simpl in Hk.
  apply lookup_app_Some in Hk as [Hk|[Hlen Hk]].
  { by apply (wf_class_extend w w' [knew] b). }
  destruct (b - length (classes w)) as [|?] eqn:Eb; [|done].
  injection Hk as <-. apply wf_class_spec. split_and!; try done.
  - constructor.
    + destruct Hinit as [e He]. exists e.
      apply (class_init_lookup w' _ knew); [|done|].
      { by rewrite Hw', lookup_app_r, Nat.sub_diag by lia. }
      simpl in He. rewrite lookup_app_r, Nat.sub_diag in He by lia. simpl in He.
      destruct (dct !! "__init__") as [e'|] eqn:Ed.
      * injection He as <-. by apply HD1.
      * rewrite (mro_lookup_extend w w' [knew]) in He by done.
        by eapply wf_lookup_hashable.
    + apply Forall_forall. intros x Hx.
      rewrite (class_init_extend w w' [knew]) by auto. auto.
  - intros _. change (cmro knew) with (length (classes w) :: mro). simpl.
    rewrite lookup_app_r, Nat.sub_diag by lia. simpl.
    destruct (dct !! "init_args") eqn:Ed; [by eexists|].
    destruct HD2 as [[? ?]|HD2]; [done|].
    rewrite (mro_lookup_extend w w' [knew]) by done.
    specialize (Hb0' HD2). destruct bases as [|b1 rest]; [discriminate|].
    injection Hb0' as ->. simpl in HD2. unfold isinstance_SlotsMeta in HD2.
    destruct (classes w !! b0) as [k0|] eqn:Hk0; [|discriminate].
    injection HD2 as Hm.
    apply (Hfind b0 k0); try done.
    apply Hall, wf_class_spec in Hk0 as (_ & _ & _ & H4). auto.
Qed.

Lemma mro_lookup_classes w1 w2 mro name :
  classes w1 = classes w2 → mro_lookup w1 mro name = mro_lookup w2 mro name.
Proof. intros H. induction mro as [|c mro IH]; simpl; [done|]. by rewrite H, IH. Qed.

Lemma class_init_classes w1 w2 c :
  classes w1 = classes w2 → class_init w1 c = class_init w2 c.
Proof.
  intros H. unfold class_init, class_getattr, getmro. rewrite H.
  destruct (classes w2 !! c); simpl; [|done].
  by rewrite (mro_lookup_classes w1 w2).
Qed.

Lemma wf_world_classes w1 w2 :
  classes w1 = classes w2 → wf_world w2 = true → wf_world w1 = true.
Proof.
  intros H. rewrite !wf_world_spec, H. intros [Ho Hall]. split; [done|].
  intros b k Hk. specialize (Hall b k Hk). rewrite wf_class_spec in *.
  destruct Hall as (H1 & H2 & H3 & H4). split_and!; try done.
  - by rewrite (mro_lookup_classes w1 w2).
  - eapply Forall_impl; [exact H3|]. intros c [e He]. exists e.
    by rewrite (class_init_classes w1 w2).
  - intros Hm. rewrite (mro_lookup_classes w1 w2) by done. auto.
Qed.

Lemma init_arg_names_EFun w init l :
  init_arg_names w init = Ok l → hashable init = true.
Proof. by destruct init. Qed.

(** Creating a class keeps the world well formed. *)
Lemma SlotsMeta_new_wf w clsname bases dct c w' :
  wf_world w = true → valid_bases w bases = true →
  SlotsMeta_new w clsname bases dct = Ok (c, w') →
  wf_world w' = true.
Proof.
  intros Hwf Hv H. destruct (dct !! "__init__") as [init|] eqn:Hinit.
  - destruct (SlotsMeta_new_init_inv _ _ _ _ _ _ _ Hinit H)
      as (parent & init_args & dct' & w1 & _ & _ & _ & Hn & Hpd & Ht & Hw).
    apply patch_dict_Ok_inv in Hpd as (p & slots & _ & _ & _ & ->).
    assert (wf_world w1 = true) as Hwf1.
    { eapply type_new_wf; [done..| | |exact Ht].
      - intros e. rewrite !lookup_insert_ne, Hinit by done.
        intros [= <-]. by eapply init_arg_names_EFun.
      - left. rewrite lookup_insert_ne, lookup_insert_eq by done. by eexists. }
    destruct Hw as [(_ & _ & ->)|(_ & -> & _)]; [|done].
    apply (wf_world_classes _ w1); [apply set_cls_classes | done].
  - unfold SlotsMeta_new in H. rewrite Hinit in H. inv_result.
    eapply type_new_wf; [done..| | |exact H].
    + intros e. by rewrite lookup_insert_ne, Hinit by done.
    + right. destruct bases as [|b0 rest]; [discriminate|].
      simpl in *. by simplify_eq.
Qed.

Lemma auto_init_wf w fun_ t w' :
  wf_world w = true → auto_init w fun_ = Ok (t, w') → wf_world w' = true.
Proof.
  intros Hwf H. unfold auto_init in H. inv_result.
  by apply (wf_world_classes _ w).
Qed.

Lemma def_fun_wf w fo : wf_world w = true → wf_world (def_fun w fo).2 = true.
Proof. intros Hwf. by apply (wf_world_classes _ w). Qed.

Lemma init_world_wf : wf_world init_world = true.
Proof. reflexivity. Qed.

(** New classes are appended: bases that were valid stay valid. *)
Lemma SlotsMeta_new_classes w clsname bases dct c w' :
  SlotsMeta_new w clsname bases dct = Ok (c, w') →
  c = length (classes w) ∧ length (classes w') = S (length (classes w)).
Proof.
  intros H.
  assert (∃ dct' w1, type_new w clsname bases dct' = Ok (c, w1) ∧
                     classes w' = classes w1) as (dct' & w1 & Ht & Hc).
  { destruct (dct !! "__init__") as [init|] eqn:Hinit.
    - destruct (SlotsMeta_new_init_inv _ _ _ _ _ _ _ Hinit H)
        as (parent & init_args & dct' & w1 & _ & _ & _ & _ & _ & Ht & Hw).
      exists dct', w1. split; [done|].
      destruct Hw as [(_ & _ & ->)|(_ & -> & _)]; [apply set_cls_classes | done].
    - unfold SlotsMeta_new in H. rewrite Hinit in H. inv_result. eauto. }
  apply type_new_Ok_inv in Ht as (-> & _ & k & Hk & _).
  split; [done|]. rewrite Hc, Hk, length_app. simpl. lia.
Qed.

(** Every world a program builds is well formed. *)
Lemma built_wf w : built w → wf_world w = true.
Proof.
  induction 1 as [|w fo _ IH|w fun_ t w' _ IH H|w clsname bases dct c w' _ IH Hv H].
  - apply init_world_wf.
  - by apply def_fun_wf.
  - by eapply auto_init_wf.
  - by eapply SlotsMeta_new_wf.
Qed.

(** * Further properties of the module *)

(** ** A class body without [__init__] *)

Lemma SlotsMeta_new_noinit_inv w clsname bases dct c w' :
  dct !! "__init__" = None →
  SlotsMeta_new w clsname bases dct = Ok (c, w') →
  ∃ b0,
    check_linear w bases = Ok tt ∧ dct !! "__slots__" = None ∧
    head bases = Some b0 ∧ isinstance_SlotsMeta w b0 = Ok true ∧
    type_new w clsname bases
      (<["__slots__" := default (ETuple []) (dct !! "slots")]> dct) = Ok (c, w').
Proof.
  intros Hinit H. unfold SlotsMeta_new in H. rewrite Hinit in H.
  apply bind_Ok_inv in H as ([] & Hlin & H).
  apply bind_Ok_inv in H as ([] & Hs%assert_Ok_inv%bool_decide_eq_true_1 & H).
  apply bind_Ok_inv in H as (b0 & Hb0%from_option_Ok_inv & H).
  apply bind_Ok_inv in H as (b & Hb & H).
  apply bind_Ok_inv in H as ([] & ->%assert_Ok_inv & H).
  by exists b0.
Qed.





(** ** What class creation leaves alone *)

Lemma type_new_Ok_class w clsname bases dct c w' :
  type_new w clsname bases dct = Ok (c, w') →
  ∃ mro, classes w' = classes w ++
           [{| cname := clsname; cmeta := true;
               cbases := match bases with [] => [object_id] | _ => bases end;
               cmro := c :: mro; cdict := dct |}] ∧
         c = length (classes w) ∧ funs w' = funs w.
Proof.
  unfold type_new. intros H.
  apply bind_Ok_inv in H as (mros & _ & H).
  apply bind_Ok_inv in H as (mro & _ & H). injection H as <- <-.
  by exists mro.
Qed.

Lemma SlotsMeta_new_type_new w clsname bases dct c w' :
  SlotsMeta_new w clsname bases dct = Ok (c, w') →
  ∃ dct' w1,
    type_new w clsname bases dct' = Ok (c, w1) ∧
    is_Some (dct' !! "__slots__") ∧
    (∀ key, key ≠ "__slots__" → key ≠ "init_args" → dct' !! key = dct !! key) ∧
    ((w' = w1) ∨
     (∃ init, dct !! "__init__" = Some init ∧
              truthy (getattr_auto_init_args w init) = true ∧
              w' = set_cls w1 init c)).
Proof.
  intros H. destruct (dct !! "__init__") as [init|] eqn:Hinit.
  - destruct (SlotsMeta_new_init_inv _ _ _ _ _ _ _ Hinit H)
      as (parent & init_args & dct' & w1 & _ & _ & _ & _ & Hpd & Ht & Hw).
    apply patch_dict_Ok_inv in Hpd as (p & slots & _ & _ & _ & ->).
    eexists _, w1. split_and!; [exact Ht | | |].
    + rewrite lookup_insert_eq. by eexists.
    + intros key H1 H2. by rewrite !lookup_insert_ne.
    + destruct Hw as [(Htr & _ & ->)|(_ & -> & _)]; [right; eauto | by left].
  - destruct (SlotsMeta_new_noinit_inv _ _ _ _ _ _ Hinit H)
      as (b0 & _ & _ & _ & _ & Ht).
    eexists _, w'. split_and!; [exact Ht | | | by left].
    + rewrite lookup_insert_eq. by eexists.
    + intros key H1 H2. by rewrite lookup_insert_ne.
Qed.



Lemma SlotsMeta_new_frame w clsname bases dct c w' :
  SlotsMeta_new w clsname bases dct = Ok (c, w') →
  c = length (classes w) ∧
  (∀ b k, classes w !! b = Some k → classes w' !! b = Some k) ∧
  (∀ g fo, funs w !! g = Some fo →
     ∃ fo', funs w' !! g = Some fo' ∧
            f_spec fo' = f_spec fo ∧ f_code fo' = f_code fo ∧
            f_auto_init_args fo' = f_auto_init_args fo ∧
            (dct !! "__init__" ≠ Some (EFun g) ∨
             truthy (f_auto_init_args fo) = false → fo' = fo)) ∧
  (∀ g, funs w !! g = None → funs w' !! g = None).
Proof.
  intros (dct' & w1 & Ht & _ & _ & Hw)%SlotsMeta_new_type_new.
  apply type_new_Ok_class in Ht as (mro & Hc & -> & Hf).
  split; [done|]. split_and!.
  - intros b k Hk.
    assert (classes w' = classes w1) as ->.
    { destruct Hw as [->|(init & _ & _ & ->)]; [done | apply set_cls_classes]. }
    rewrite Hc. by apply lookup_app_l_Some.
  - intros g fo Hg. destruct Hw as [->|(init & Hinit & Htr & ->)].
    + exists fo. by rewrite Hf.
    + destruct init as [f| | |]; try discriminate Htr.
      simpl. rewrite Hf. destruct (decide (f = g)) as [->|Hne].
      * rewrite list_lookup_alter_eq, Hg. simpl. eexists. split_and!; try done.
        simpl in Htr. rewrite Hg in Htr. simpl in Htr.
        intros [Hn|Hn]; [by rewrite Hinit in Hn | congruence].
      * rewrite list_lookup_alter_ne by done. by exists fo.
  - intros g Hg. destruct Hw as [->|(init & Hinit & Htr & ->)].
    + by rewrite Hf.
    + destruct init as [f| | |]; try discriminate Htr.
      simpl. rewrite Hf. destruct (decide (f = g)) as [->|Hne].
      * by rewrite list_lookup_alter_eq, Hg.
      * by rewrite list_lookup_alter_ne.
Qed.

(** Creating a class appends it to the table: the table grows by the
    new class alone, the classes that exist stay as they are, and of the
    function objects only the trampoline that is the new class's
    [__init__] changes, in its [cls] alone. *)
Theorem class_creation_frame w clsname bases dct c w' :
  SlotsMeta_new w clsname bases dct = Ok (c, w') →
  c = length (classes w) ∧
  length (classes w') = S (length (classes w)) ∧
  length (funs w') = length (funs w) ∧
  (∀ b k, classes w !! b = Some k → classes w' !! b = Some k) ∧
  (∀ g fo, funs w !! g = Some fo →
     ∃ fo', funs w' !! g = Some fo' ∧
            f_spec fo' = f_spec fo ∧ f_code fo' = f_code fo ∧
            f_auto_init_args fo' = f_auto_init_args fo ∧
            (dct !! "__init__" ≠ Some (EFun g) ∨
             truthy (f_auto_init_args fo) = false → fo' = fo)).
Proof.
  intros H.
  destruct (SlotsMeta_new_frame _ _ _ _ _ _ H) as (Hc & Hcl & Hf & Hn).
  destruct (SlotsMeta_new_classes _ _ _ _ _ _ H) as (_ & Hlen).
  split_and!; try done.
  destruct (decide (length (funs w') = length (funs w))) as [|Hne]; [done|].
  exfalso. destruct (decide (length (funs w) < length (funs w'))) as [Hlt|Hge].
  - destruct (lookup_lt_is_Some_2 _ _ Hlt) as [fo Hfo].
    rewrite (Hn (length (funs w))) in Hfo; [done|]. by apply lookup_ge_None_2.
  - assert (length (funs w') < length (funs w)) as Hlt by lia.
    destruct (lookup_lt_is_Some_2 _ _ Hlt) as [fo Hfo].
    destruct (Hf _ _ Hfo) as (fo' & Hfo' & _).
    apply lookup_lt_Some in Hfo'. lia.
Qed.

Lemma class_creation_frame_witness :
  2 = length (classes world_If_def) ∧
  length (classes world_with_If) = S (length (classes world_If_def)) ∧
  length (funs world_with_If) = length (funs world_If_def) ∧
  (∀ b k, classes world_If_def !! b = Some k → classes world_with_If !! b = Some k) ∧
  (∀ g fo, funs world_If_def !! g = Some fo →
     ∃ fo', funs world_with_If !! g = Some fo' ∧
            f_spec fo' = f_spec fo ∧ f_code fo' = f_code fo ∧
            f_auto_init_args fo' = f_auto_init_args fo ∧
            (({[ "__init__" := EFun 3 ]} : gmap string entry) !! "__init__"
               ≠ Some (EFun g) ∨
             truthy (f_auto_init_args fo) = false → fo' = fo)).
Proof.
  apply (class_creation_frame world_If_def "If" [1] {[ "__init__" := EFun 3 ]}
           2 world_with_If).
  vm_compute. reflexivity.
Defined.

(** ** The decorator *)

(** A trampoline cannot be the [__init__] of a class whose first base is
    not a [SlotsMeta] class: the creation fails an assertion. *)
Theorem auto_init_needs_SlotsMeta_base w clsname bases dct init :
  wf_world w = true → valid_bases w bases = true →
  dct !! "__init__" = Some init →
  truthy (getattr_auto_init_args w init) = true →
  first_base_is_SlotsMeta w bases = Ok false →
  ∃ p, SlotsMeta_new w clsname bases dct = Raise (AssertionError p).
Proof.
  intros Hwf Hv Hinit Htr Hb. unfold SlotsMeta_new.
  destruct (check_linear_wf w bases Hwf Hv) as [->|(c & -> & _)];
    [simpl|by eexists].
  destruct (dct !! "__slots__"); simpl; [by eexists|].
  rewrite Hinit. unfold parent_init_args_of. rewrite Hb. simpl.
  rewrite Htr. by eexists.
Qed.

Lemma auto_init_needs_SlotsMeta_base_witness :
  ∃ p, SlotsMeta_new world_If_def "Root" [] {[ "__init__" := EFun 3 ]}
       = Raise (AssertionError p).
Proof.
  apply (auto_init_needs_SlotsMeta_base world_If_def "Root" []
           {[ "__init__" := EFun 3 ]} (EFun 3)).
  - vm_compute. reflexivity.
  - reflexivity.
  - reflexivity.
  - reflexivity.
  - reflexivity.
Defined.

(** A trampoline made from a function without parameters has an empty
    [auto_init_args]: [SlotsMeta] then takes it for a plain function,
    introspects the closure and fails the assertion on its [*args]. *)
Theorem auto_init_without_parameters w clsname bases dct t fun_ :
  wf_world w = true → valid_bases w bases = true →
  made_by_auto_init w t fun_ →
  getattr_auto_init_args w (EFun t) = Some [] →
  dct !! "__init__" = Some (EFun t) →
  ∃ p, SlotsMeta_new w clsname bases dct = Raise (AssertionError p).
Proof.
  intros Hwf Hv Hm Hargs Hinit. unfold SlotsMeta_new.
  destruct (check_linear_wf w bases Hwf Hv) as [->|(c & -> & _)];
    [simpl|by eexists].
  destruct (dct !! "__slots__"); simpl; [by eexists|].
  rewrite Hinit. destruct (parent_init_args_wf w bases Hwf Hv) as [e ->].
  destruct (made_by_auto_init_spec _ _ _ Hm) as (spec & Hs & Ha).
  simpl. simpl in Hargs, Hs. rewrite Hargs. simpl.
  rewrite Hs. simpl. rewrite Ha. simpl. by eexists.
Qed.

Lemma auto_init_without_parameters_witness :
  ∃ p, SlotsMeta_new world_noparam_def "Unit" [1] {[ "__init__" := EFun 3 ]}
       = Raise (AssertionError p).
Proof.
  apply (auto_init_without_parameters world_noparam_def "Unit" [1]
           {[ "__init__" := EFun 3 ]} 3 2).
  - vm_compute. reflexivity.
  - vm_compute. reflexivity.
  - do 2 eexists. split_and!; reflexivity.
  - reflexivity.
  - reflexivity.
Defined.

(** Decorating a trampoline again fails an assertion. *)
Theorem auto_init_twice w t fun_ :
  made_by_auto_init w t fun_ →
  ∃ p, auto_init w t = Raise (AssertionError p).
Proof.
  intros (spec & Hs & Ha)%made_by_auto_init_spec.
  unfold auto_init. rewrite Hs. simpl. rewrite Ha. simpl. by eexists.
Qed.

Lemma auto_init_twice_witness :
  ∃ p, auto_init world_If_def 3 = Raise (AssertionError p).
Proof.
  apply (auto_init_twice world_If_def 3 2).
  do 2 eexists. split_and!; reflexivity.
Defined.

(** [auto_init] accepts every function whose signature has positional
    parameters only and no default value: the trampoline is a new
    function object built from it, no class changes and every function
    object that exists stays as it is. *)
Theorem auto_init_accepts w fun_ spec :
  getfullargspec w (EFun fun_) = Ok spec →
  ¬ variadic_or_kwonly_or_annotated spec →
  not_defaults spec = true →
  ∃ w', auto_init w fun_ = Ok (length (funs w), w') ∧
        classes w' = classes w ∧
        made_by_auto_init w' (length (funs w)) fun_ ∧
        (∀ g fo, funs w !! g = Some fo → funs w' !! g = Some fo) ∧
        length (funs w') = S (length (funs w)).
Proof.
  intros Hs Hshape Hd. unfold auto_init. rewrite Hs. simpl.
  destruct (shape_asserts_pass spec Hshape) as (-> & -> & ->). rewrite Hd. simpl.
  simpl in Hs. destruct (funs w !! fun_) as [fo|] eqn:Hfo; [|discriminate].
  injection Hs as <-. simpl. eexists. split_and!; try done.
  - exists {| f_spec := trampoline_spec; f_code := Trampoline fun_;
              f_auto_init_args := Some (FullArgSpec.args (f_spec fo));
              f_cls := f_cls fo |}, fo.
    simpl. split_and!; try done.
    + by rewrite lookup_app_r, Nat.sub_diag by lia.
    + by apply lookup_app_l_Some.
  - simpl. intros g go Hg. by apply lookup_app_l_Some.
  - simpl. rewrite length_app. simpl. lia.
Qed.

Lemma auto_init_accepts_witness :
  ∃ w', auto_init world_with_Code 1 = Ok (length (funs world_with_Code), w') ∧
        classes w' = classes world_with_Code ∧
        made_by_auto_init w' (length (funs world_with_Code)) 1 ∧
        (∀ g fo, funs world_with_Code !! g = Some fo → funs w' !! g = Some fo) ∧
        length (funs w') = S (length (funs world_with_Code)).
Proof.
  apply (auto_init_accepts world_with_Code 1 (simple_spec ["self"; "site"])).
  - reflexivity.
  - intros [H|[H|[H|[H|H]]]]; by apply H.
  - reflexivity.
Defined.

(** Decoration and class creation keep every trampoline as [auto_init]
    built it: its code, its signature and its [auto_init_args]. *)
Theorem trampolines_stay_as_built w t fun_ :
  made_by_auto_init w t fun_ →
  (∀ g u w', auto_init w g = Ok (u, w') → made_by_auto_init w' t fun_) ∧
  (∀ clsname bases dct c w',
     SlotsMeta_new w clsname bases dct = Ok (c, w') →
     made_by_auto_init w' t fun_).
Proof.
  intros (fo & go & Hfo & Hgo & Hc & Hs & Ha). split.
  - intros g u w' H. unfold auto_init in H. inv_result. simpl.
    exists fo, go. simpl. split_and!; try done; by apply lookup_app_l_Some.
  - intros clsname bases dct c w' H.
    destruct (SlotsMeta_new_frame _ _ _ _ _ _ H) as (_ & _ & Hfun & _).
    destruct (Hfun _ _ Hfo) as (fo' & Hfo' & Hs' & Hc' & Ha' & _).
    destruct (Hfun _ _ Hgo) as (go' & Hgo' & Hgs' & _).
    exists fo', go'. split_and!; congruence.
Qed.

Lemma trampolines_stay_as_built_witness :
  (∀ g u w', auto_init world_If_def g = Ok (u, w') → made_by_auto_init w' 3 2) ∧
  (∀ clsname bases dct c w',
     SlotsMeta_new world_If_def clsname bases dct = Ok (c, w') →
     made_by_auto_init w' 3 2).
Proof.
  apply (trampolines_stay_as_built world_If_def 3 2).
  do 2 eexists. split_and!; reflexivity.
Defined.

(** ** The linearity check on ancestors *)

(** Bases after the first whose MRO holds only classes of the MRO of
    the first base always pass the linearity check. *)
Theorem ancestors_pass_linearity w b0 rest mro0 :
  wf_world w = true → valid_bases w (b0 :: rest) = true →
  getmro w b0 = Ok mro0 →
  (∀ b mro c, b ∈ rest → getmro w b = Ok mro → c ∈ mro → c ∈ mro0) →
  check_linear w (b0 :: rest) = Ok tt.
Proof.
  intros Hwf Hv Hm0 Hsub.
  destruct (check_linear_wf w _ Hwf Hv) as [H|(c & _ & Hoff)]; [done|].
  destruct Hoff as (b0' & rest' & mro0' & b & mro & e & [= <- <-] & Hm0' & Hb & Hm
                    & Hc & He & Hn).
  rewrite Hm0 in Hm0'. injection Hm0' as <-.
  exfalso. by apply (Hn c (Hsub b mro c Hb Hm Hc)).
Qed.

Lemma ancestors_pass_linearity_witness :
  check_linear world_with_If [2; 1] = Ok tt.
Proof.
  apply (ancestors_pass_linearity world_with_If 2 [1] [2; 1; 0]).
  - vm_compute. reflexivity.
  - vm_compute. reflexivity.
  - reflexivity.
  - intros b mro c ->%list_elem_of_singleton [= <-] Hc.
    by apply list_elem_of_further.
Defined.

(** ** Worlds that programs build *)

Lemma built_slots w :
  built w →
  ∀ c k, classes w !! c = Some k → cmeta k = true → is_Some (cdict k !! "__slots__").
Proof.
  induction 1 as [|w fo _ IH|w fun_ t w' _ IH H|w clsname bases dct c w' _ IH Hv H];
    intros c0 k Hk Hm.
  - destruct c0 as [|c0]; simpl in Hk; [|by destruct c0].
    injection Hk as <-. discriminate Hm.
  - by eapply IH.
  - unfold auto_init in H. inv_result. by eapply IH.
  - destruct (SlotsMeta_new_type_new _ _ _ _ _ _ H) as (dct' & w1 & Ht & Hs & _ & Hw).
    apply type_new_Ok_class in Ht as (mro & Hc & _ & _).
    assert (classes w' = classes w1) as Hcl.
    { destruct Hw as [->|(init & _ & _ & ->)]; [done | apply set_cls_classes]. }
    rewrite Hcl, Hc in Hk. apply lookup_app_Some in Hk as [Hk|[_ Hk]].
    + by eapply IH.
    + destruct (c0 - length (classes w)) as [|n]; [|by destruct n].
      by injection Hk as <-.
Qed.

(** In every world a program builds, [__init__] resolves on every class
    to a hashable object, and every [SlotsMeta] class has [__slots__] in
    its dictionary and resolves [init_args]. *)
Theorem built_world_invariant w :
  built w →
  ∀ c k, classes w !! c = Some k →
    (∃ e, class_getattr w c "__init__" = Ok e ∧ hashable e = true) ∧
    (cmeta k = true →
     is_Some (cdict k !! "__slots__") ∧ ∃ e, class_getattr w c "init_args" = Ok e).
Proof.
  intros Hb c k Hk. pose proof (built_wf w Hb) as Hwf.
  assert (c < length (classes w)) as Hc by (by eapply lookup_lt_Some).
  split.
  - destruct (wf_class_init w c Hwf Hc) as [e He].
    exists e. by apply class_init_Ok_inv.
  - intros Hm. split; [by eapply built_slots|].
    destruct (wf_world_base w c Hwf Hc) as (k' & Hk' & Hmro & _ & Hi).
    rewrite Hk in Hk'. injection Hk' as <-.
    destruct (Hi Hm) as [e He]. exists e.
    unfold class_getattr. rewrite Hmro. simpl. by rewrite He.
Qed.

Lemma built_world_invariant_witness :
  (∃ e, class_getattr world_with_If 1 "__init__" = Ok e ∧ hashable e = true) ∧
  (true = true →
   is_Some ((<["__slots__" := ETuple ["site"; "context"]]>
               (<["init_args" := EList ["self"; "site"]]>
                  {[ "slots" := ETuple ["context"]; "__init__" := EFun 1 ]})
             : gmap string entry) !! "__slots__") ∧
   ∃ e, class_getattr world_with_If 1 "init_args" = Ok e).
Proof.
  refine (built_world_invariant world_with_If _ 1
            {| cname := "Code"; cmeta := true; cbases := [0]; cmro := [1; 0];
               cdict := <["__slots__" := ETuple ["site"; "context"]]>
                          (<["init_args" := EList ["self"; "site"]]>
                             {[ "slots" := ETuple ["context"];
                                "__init__" := EFun 1 ]}) |} _);
    [|vm_compute; reflexivity].
  apply (built_class world_If_def "If" [1] {[ "__init__" := EFun 3 ]} 2).
  - apply (built_auto_init
             (def_fun world_with_Code (pass_fun ["self"; "site"; "cond"; "body"])).2
             2 3).
    + apply built_def.
      apply (built_class (def_fun init_world Code_init).2 "Code" []
               {[ "slots" := ETuple ["context"]; "__init__" := EFun 1 ]} 1).
      * apply built_def, built_init.
      * reflexivity.
      * vm_compute. reflexivity.
    + vm_compute. reflexivity.
  - vm_compute. reflexivity.
  - vm_compute. reflexivity.
Defined.

(** ** The trampoline on bad calls *)

Lemma after_not_elem c mro : c ∉ mro → after c mro = None.
Proof.
  induction mro as [|x mro IH]; simpl; [done|].
  intros [Hne Hc]%not_elem_of_cons.
  rewrite bool_decide_eq_false_2 by done. by apply IH.
Qed.



(** ** What the decorated function finds *)

Lemma assign_attrs_app pairs1 pairs2 m :
  assign_attrs (pairs1 ++ pairs2) m = assign_attrs pairs2 (assign_attrs pairs1 m).
Proof. unfold assign_attrs. by rewrite foldl_app. Qed.

Lemma assign_attrs_other pairs m name :
  name ∉ pairs.*1 → assign_attrs pairs m !! name = m !! name.
Proof.
  unfold assign_attrs. revert m.
  induction pairs as [|[n a] pairs IH]; intros m Hn; simpl; [done|].
  simpl in Hn. apply not_elem_of_cons in Hn as [Hne Hn].
  rewrite IH by done. by rewrite lookup_insert_ne.
Qed.

Lemma elem_of_fst_zip {A B} (l : list A) (k : list B) (x : A) :
  x ∈ (zip l k).*1 → x ∈ l.
Proof.
  revert k. induction l as [|a l IH]; intros [|b k]; simpl;
    try by intros ?%elem_of_nil.
  intros [->|H]%elem_of_cons; [apply list_elem_of_here|].
  apply list_elem_of_further. by eapply IH.
Qed.

Lemma NoDup_fst_zip {A B} (l : list A) (k : list B) :
  NoDup l → NoDup (zip l k).*1.
Proof.
  revert k. induction l as [|a l IH]; intros [|b k] Hnd; simpl;
    try apply NoDup_nil_2.
  apply NoDup_cons in Hnd as [Ha Hnd]. apply NoDup_cons. split; [|by apply IH].
  intros H. by apply Ha, (elem_of_fst_zip l k).
Qed.

Lemma elem_of_zip_lookup {A B} (l : list A) (k : list B) (j : nat) (x : A) (y : B) :
  l !! j = Some x → k !! j = Some y → (x, y) ∈ zip l k.
Proof.
  revert k j. induction l as [|a l IH]; intros [|b k] [|j]; simpl; try done.
  - intros [= ->] [= ->]. apply list_elem_of_here.
  - intros Hl Hk. apply list_elem_of_further. by eapply IH.
Qed.



(** ** The metaclass and the trampoline agree *)

Lemma mro_merge_single fuel (l : list nat) :
  length l ≤ fuel → NoDup l → mro_merge fuel [l; []] = Some l.
Proof.
  revert fuel. induction l as [|x l IH]; intros fuel Hlen Hnd.
  - by destruct fuel.
  - destruct fuel as [|fuel]; [simpl in Hlen; lia|].
    apply NoDup_cons in Hnd as [Hx Hnd]. simpl.
    unfold in_tail. simpl. rewrite (bool_decide_eq_false_2 (x ∈ l)) by done.
    simpl. rewrite bool_decide_eq_true_2 by done.
    rewrite IH by (simpl in Hlen; done || lia). done.
Qed.

Lemma mro_merge_base fuel (b0 : nat) (tl : list nat) :
  length tl ≤ fuel → NoDup (b0 :: tl) →
  mro_merge (S fuel) [b0 :: tl; [b0]] = Some (b0 :: tl).
Proof.
  intros Hlen [Hb0 Hnd]%NoDup_cons. simpl.
  unfold in_tail. simpl. rewrite (bool_decide_eq_false_2 (b0 ∈ tl)) by done.
  simpl. rewrite bool_decide_eq_true_2 by done.
  by rewrite mro_merge_single.
Qed.

Lemma type_new_single w clsname b0 k0 tl dct c w' :
  classes w !! b0 = Some k0 → cmro k0 = b0 :: tl → NoDup (cmro k0) →
  type_new w clsname [b0] dct = Ok (c, w') →
  c = length (classes w) ∧
  classes w' = classes w ++
    [{| cname := clsname; cmeta := true; cbases := [b0];
        cmro := c :: cmro k0; cdict := dct |}].
Proof.
  intros Hk0 Hmro Hnd H. unfold type_new, getmro in H.
  cbn -[mro_merge] in H. rewrite Hk0 in H. cbn -[mro_merge] in H.
  rewrite Hmro in H, Hnd.
  rewrite mro_merge_base in H; [|rewrite length_app; simpl; lia|done].
  cbn in H. injection H as <- <-. by rewrite Hmro.
Qed.

(** With one base, a [SlotsMeta] class, the trampoline and the metaclass
    agree on an instance of the new class: [super] gives the MRO of the
    base, whose [init_args] is the list the metaclass cut the slots at,
    so the names the trampoline assigns positional arguments to are the
    parameters after the parent's, each of them a slot of the new class
    that can be assigned. *)
Theorem trampoline_assigns_new_slots w clsname b0 k0 tl dct init c w' :
  wf_world w = true →
  classes w !! b0 = Some k0 → cmeta k0 = true →
  cmro k0 = b0 :: tl → NoDup (cmro k0) →
  dct !! "__init__" = Some init →
  SlotsMeta_new w clsname [b0] dct = Ok (c, w') →
  ∃ init_args parent,
    init_arg_names w init = Ok init_args ∧
    parent `prefix_of` init_args ∧
    ∀ h o i, h !! o = Some i → icls i = c → iattrs i !! "init_args" = None →
      super w' h c (VObj o) = Ok (cmro k0) ∧
      mro_lookup w' (cmro k0) "init_args" = Some (EList parent) ∧
      self_init_args_from w' h (VObj o) (length parent)
        = Ok (drop (length parent) init_args) ∧
      ∀ name, name ∈ drop (length parent) init_args → assignable w' h o name.
Proof.
  intros Hwf Hk0 Hm Hmro Hnd Hinit H.
  destruct (SlotsMeta_new_init_inv _ _ _ _ _ _ _ Hinit H)
    as (parent & init_args & dct' & w1 & _ & _ & Hp & Hn & Hpd & Ht & Hw).
  apply patch_dict_Ok_inv in Hpd as (p & slots & -> & Htake & _ & ->).
  destruct (type_new_single _ _ _ _ _ _ _ _ Hk0 Hmro Hnd Ht) as (-> & Hc1).
  assert (classes w' = classes w1) as Hcl.
  { destruct Hw as [(_ & _ & ->)|(_ & -> & _)]; [apply set_cls_classes | done]. }
  rewrite Hc1 in Hcl. clear Hw Ht Hc1 H.
  set (knew := {| cname := clsname; cmeta := true; cbases := [b0];
                  cmro := length (classes w) :: cmro k0;
                  cdict := <["__slots__" := ETuple (drop (length p) init_args ++ slots)]>
                             (<["init_args" := EList init_args]> dct) |}) in Hcl.
  assert (classes w' !! length (classes w) = Some knew) as Hnew
    by (by rewrite Hcl, lookup_app_r, Nat.sub_diag by lia).
  assert (mro_lookup w (cmro k0) "init_args" = Some (EList p)) as Hpl.
  { unfold parent_init_args_of, first_base_is_SlotsMeta, isinstance_SlotsMeta in Hp.
    rewrite Hk0 in Hp. simpl in Hp. rewrite Hm in Hp.
    unfold class_getattr, getmro in Hp. rewrite Hk0 in Hp. simpl in Hp.
    by apply from_option_Ok_inv in Hp. }
  exists init_args, p. split_and!; [done | |].
  { exists (drop (length p) init_args). by apply take_prefix_eq. }
  intros h o i Hi Hic Hia.
  assert (getmro w' (icls i) = Ok (length (classes w) :: cmro k0)) as Hg
    by (unfold getmro; by rewrite Hic, Hnew).
  split_and!.
  - simpl. rewrite Hi. simpl. rewrite Hg. simpl.
    by rewrite bool_decide_eq_true_2.
  - rewrite (mro_lookup_extend w w' [knew]); [done..|].
    intros c' Hc'. by eapply wf_valid_mro.
  - simpl. rewrite Hi. simpl. rewrite Hia.
    unfold class_getattr. rewrite Hg. simpl. rewrite Hnew. simpl.
    by rewrite lookup_insert_ne, lookup_insert_eq.
  - intros name Hname. exists i, (length (classes w) :: cmro k0).
    split_and!; try done. apply orb_true_iff. right.
    apply bool_decide_eq_true_2. unfold slot_names. simpl.
    apply elem_of_app. left. rewrite Hnew. simpl. rewrite lookup_insert_eq.
    simpl. apply elem_of_app. by left.
Qed.

Lemma trampoline_assigns_new_slots_witness :
  ∃ init_args parent,
    init_arg_names world_If_def (EFun 3) = Ok init_args ∧
    parent `prefix_of` init_args ∧
    ∀ h o i, h !! o = Some i → icls i = 2 → iattrs i !! "init_args" = None →
      super world_with_If h 2 (VObj o) = Ok [1; 0] ∧
      mro_lookup world_with_If [1; 0] "init_args" = Some (EList parent) ∧
      self_init_args_from world_with_If h (VObj o) (length parent)
        = Ok (drop (length parent) init_args) ∧
      ∀ name, name ∈ drop (length parent) init_args →
              assignable world_with_If h o name.
Proof.
  apply (trampoline_assigns_new_slots world_If_def "If" 1
           {| cname := "Code"; cmeta := true; cbases := [0]; cmro := [1; 0];
              cdict := <["__slots__" := ETuple ["site"; "context"]]>
                         (<["init_args" := EList ["self"; "site"]]>
                            {[ "slots" := ETuple ["context"]; "__init__" := EFun 1 ]}) |}
           [0] {[ "__init__" := EFun 3 ]} (EFun 3) 2 world_with_If).
  - vm_compute. reflexivity.
  - vm_compute. reflexivity.
  - reflexivity.
  - reflexivity.
  - apply (bool_decide_unpack _). vm_compute. exact I.
  - reflexivity.
  - vm_compute. reflexivity.
Defined.

(** ** Inheriting the initializer *)



(** ** A keyword argument that cannot be stored *)



(** ** Root classes *)

Lemma built_object w :
  built w →
  ∃ k, classes w !! object_id = Some k ∧ cmro k = [object_id] ∧ cmeta k = false.
Proof.
  induction 1 as [|w fo _ IH|w fun_ t w' _ IH H|w clsname bases dct c w' _ IH Hv H].
  - by eexists.
  - done.
  - unfold auto_init in H. inv_result. done.
  - destruct IH as (k & Hk & Hm). exists k. split; [|done].
    by apply (SlotsMeta_new_frame _ _ _ _ _ _ H).
Qed.

Lemma SlotsMeta_new_plain w clsname bases dct init spec parent dct' :
  dct !! "__init__" = Some init →
  truthy (getattr_auto_init_args w init) = false →
  getfullargspec w init = Ok spec →
  ¬ variadic_or_kwonly_or_annotated spec →
  check_linear w bases = Ok tt → dct !! "__slots__" = None →
  parent_init_args_of w bases = Ok parent →
  patch_dict dct (FullArgSpec.args spec) parent = Ok dct' →
  SlotsMeta_new w clsname bases dct = type_new w clsname bases dct'.
Proof.
  intros Hinit Hplain Hs Hshape Hlin Hslots Hp Hpd.
  unfold SlotsMeta_new. rewrite Hlin, Hslots, Hinit, Hp. simpl.
  rewrite Hplain, Hs. simpl.
  destruct (shape_asserts_pass spec Hshape) as (-> & -> & ->). simpl.
  by rewrite Hpd.
Qed.


